(** * Shallow embedding of the musli serialization core

    Models of the binary-tagged wire format (type tags, tag decoding,
    [skip_any], pair-sequence decoding), the byte readers of
    musli-binary-common ([Limit]), the variable integer encoding of
    musli-storage (continuation and zig-zag), and the JSON integer parser
    and decoder of musli-json.

    Fixed-width integers are [Z] values with their wrap-around written out;
    byte streams are [list Z] with every element in [0, 256). *)

From Stdlib Require Import ZArith List Lia Bool.
Import ListNotations.
Open Scope Z_scope.

(** ** Results *)

(** [Result<T, E>]. *)
Inductive result (A E : Type) : Type :=
| Ok : A -> result A E
| Err : E -> result A E.
Arguments Ok {A E} _.
Arguments Err {A E} _.

(** ** musli-wire/src/types.rs: [TypeKind] and [TypeTag] *)
Module Types.

(** [LEN_MASK] (= [SEE_NEXT]). *)
Definition LEN_MASK : Z := 31.

Inductive TypeKind :=
| Mark | Byte | Fixed | Continuation | Prefixed | Sequence | PairSequence | Unknown.

(** [kind as u8]: the discriminants of the [#[repr(u8)]] enum. *)
Definition kind_u8 (k : TypeKind) : Z :=
  match k with
  | Mark => 0 (* 0b000_00000 *)
  | Byte => 32 (* 0b001_00000 *)
  | Fixed => 64 (* 0b010_00000 *)
  | Continuation => 96 (* 0b011_00000 *)
  | Prefixed => 128 (* 0b100_00000 *)
  | Sequence => 160 (* 0b101_00000 *)
  | PairSequence => 192 (* 0b110_00000 *)
  | Unknown => 224 (* 0b111_00000 *)
  end.

Definition TypeKind_eqb (a b : TypeKind) : bool := kind_u8 a =? kind_u8 b.

(** [pub struct TypeTag { kind, len: u8 }]. *)
Record TypeTag := mkTypeTag { kind : TypeKind; len : Z }.

Definition TypeTag_eqb (a b : TypeTag) : bool :=
  TypeKind_eqb (kind a) (kind b) && (len a =? len b).

(** [TypeTag::new]. *)
Definition new (k : TypeKind) (l : Z) : TypeTag :=
  {| kind := k; len := if l <? LEN_MASK then l else LEN_MASK |}.

(** [!LEN_MASK] on [u8]. *)
Definition NOT_LEN_MASK : Z := Z.land (Z.lnot LEN_MASK) 255.

(** [TypeTag::from_byte]. *)
Definition from_byte (b : Z) : TypeTag :=
  let l := Z.land b LEN_MASK in
  let k := Z.land b NOT_LEN_MASK in
  let kind :=
    if k =? kind_u8 Mark then Mark
    else if k =? kind_u8 Byte then Byte
    else if k =? kind_u8 Fixed then Fixed
    else if k =? kind_u8 Continuation then Continuation
    else if k =? kind_u8 Prefixed then Prefixed
    else if k =? kind_u8 Sequence then Sequence
    else if k =? kind_u8 PairSequence then PairSequence
    else Unknown in
  {| kind := kind; len := l |}.

(** [TypeTag::byte]. *)
Definition byte (t : TypeTag) : Z := Z.lor (kind_u8 (kind t)) (len t).

(** [TypeTag::len] (the method; [len] above is the field). *)
Definition len_opt (t : TypeTag) : option Z :=
  if len t =? LEN_MASK then None else Some (len t).

Definition all_kinds : list TypeKind :=
  [Mark; Byte; Fixed; Continuation; Prefixed; Sequence; PairSequence; Unknown].

(** Exhaustive check over every kind and every stored length [0..31]. *)
Definition roundtrip_table : bool :=
  forallb (fun k =>
    forallb (fun n =>
      TypeTag_eqb (from_byte (byte (mkTypeTag k (Z.of_nat n))))
                  (mkTypeTag k (Z.of_nat n)))
      (seq 0 32))
    all_kinds.

End Types.

(** ** musli-binary-common/src/reader.rs: [Reader] for slices and [Limit] *)
Module Reader.

(** Errors of the slice reader: [SliceReaderError::custom("buffer underflow")]
    and the [custom("out of bounds")] raised by [Limit]. *)
Inductive SliceReaderError := BufferUnderflow | OutOfBounds.

(** [impl Reader for &'de [u8]]: a reader is the remaining slice; every
    operation passes the slice along ([&mut self]). *)
Definition slice_skip (n : nat) (s : list Z) : result unit SliceReaderError * list Z :=
  if (length s <? n)%nat then (Err BufferUnderflow, s) else (Ok tt, skipn n s).

Definition slice_read_bytes (n : nat) (s : list Z)
  : result (list Z) SliceReaderError * list Z :=
  if (length s <? n)%nat then (Err BufferUnderflow, s) else (Ok (firstn n s), skipn n s).

Definition slice_read (buf : list Z) (s : list Z)
  : result (list Z) SliceReaderError * list Z :=
  if (length s <? length buf)%nat then (Err BufferUnderflow, s)
  else (Ok (firstn (length buf) s), skipn (length buf) s).

(** Default [read_array::<N>]: [read_bytes(N)]. *)
Definition slice_read_array (n : nat) (s : list Z)
  : result (list Z) SliceReaderError * list Z := slice_read_bytes n s.

(** Default [read_byte]: [let [byte] = read_array::<1>()]. *)
Definition slice_read_byte (s : list Z) : result Z SliceReaderError * list Z :=
  match slice_read_array 1 s with
  | (Ok [b], s') => (Ok b, s')
  | (Ok _, s') => (Err BufferUnderflow, s') (* unreachable: read_bytes(1) has length 1 *)
  | (Err e, s') => (Err e, s')
  end.

Section Limit.
(** The wrapped reader [R] with its error type and operations. *)
Context {R E : Type}.
Context (r_skip : nat -> R -> result unit E * R)
        (r_read_bytes : nat -> R -> result (list Z) E * R)
        (r_read : list Z -> R -> result (list Z) E * R)
        (r_read_byte : R -> result Z E * R)
        (r_read_array : nat -> R -> result (list Z) E * R)
        (out_of_bounds : E).

(** [pub struct Limit<R> { remaining: usize, reader: R }]. *)
Record Limit := mkLimit { remaining : nat; reader : R }.

(** [Limit::bounds_check]: [checked_sub], storing the new budget on success. *)
Definition bounds_check (n : nat) (l : Limit) : result unit E * Limit :=
  if (n <=? remaining l)%nat
  then (Ok tt, mkLimit (remaining l - n) (reader l))
  else (Err out_of_bounds, l).

(** [self.bounds_check(n)?; self.reader.op(..)]. *)
Definition checked {A : Type} (n : nat) (op : R -> result A E * R) (l : Limit)
  : result A E * Limit :=
  match bounds_check n l with
  | (Err e, l1) => (Err e, l1)
  | (Ok _, l1) =>
      let '(res, r') := op (reader l1) in (res, mkLimit (remaining l1) r')
  end.

Definition limit_skip (n : nat) (l : Limit) : result unit E * Limit :=
  checked n (r_skip n) l.

Definition limit_read_bytes (n : nat) (l : Limit) : result (list Z) E * Limit :=
  checked n (r_read_bytes n) l.

Definition limit_read (buf : list Z) (l : Limit) : result (list Z) E * Limit :=
  checked (length buf) (r_read buf) l.

Definition limit_read_byte (l : Limit) : result Z E * Limit :=
  checked 1 r_read_byte l.

Definition limit_read_array (n : nat) (l : Limit) : result (list Z) E * Limit :=
  checked n (r_read_array n) l.

End Limit.

Arguments Limit : clear implicits.

End Reader.

(** ** Continuation and zig-zag codecs, and the [Variable] integer encoding *)
Module Int.

(** Errors raised while decoding: the reader running dry, a continuation
    integer with more groups than the target width, a tag of an unexpected
    kind, and the unknown tag kind of the spec. *)
Inductive DecodeError := Underflow | Overflow | Expected | UnknownKind.

(** [read_byte] on a slice reader. *)
Definition read_byte (r : list Z) : result (Z * list Z) DecodeError :=
  match r with
  | [] => Err Underflow
  | b :: r' => Ok (b, r')
  end.

(** [skip(n)] on a slice reader. *)
Definition skip (n : Z) (r : list Z) : result (list Z) DecodeError :=
  if Z.of_nat (length r) <? n then Err Underflow else Ok (skipn (Z.to_nat n) r).

Definition MASK : Z := 127.      (* 0b0111_1111 *)
Definition CONT_BYTE : Z := 128. (* 0b1000_0000 *)

(** Modelled from the spec: [musli_binary_common::int::continuation::encode],
    absent from src. "Emit the integer seven bits at a time,
    least-significant first. Each byte sets bit 7 if more bytes follow,
    clears it on the last byte."  [fuel] bounds the number of groups; a
    [w]-bit value has at most [w] of them. *)
Fixpoint c_encode_aux (fuel : nat) (v : Z) : list Z :=
  match fuel with
  | O => [v]
  | S f =>
      if v <? CONT_BYTE then [v]
      else Z.lor (Z.land v MASK) CONT_BYTE :: c_encode_aux f (Z.shiftr v 7)
  end.

(** [c::encode] for a [w]-bit unsigned target. *)
Definition c_encode (w v : Z) : list Z := c_encode_aux (Z.to_nat w) v.

(** Modelled from the spec: [musli_binary_common::int::continuation::decode],
    absent from src. "Decoding reads until a byte without the high bit;
    overflow (more groups than the target width supports non-zero bits)
    fails with overflow."  [shift] is the bit position of the next group and
    [acc] the value so far; the result wraps to [w] bits. *)
Fixpoint c_decode_aux (w shift acc : Z) (r : list Z) : result (Z * list Z) DecodeError :=
  match r with
  | [] => Err Underflow
  | b :: r' =>
      let acc' := acc + Z.shiftl (Z.land b MASK) shift in
      if Z.land b CONT_BYTE =? 0 then Ok (acc' mod 2 ^ w, r')
      else if w <=? shift + 7 then Err Overflow
      else c_decode_aux w (shift + 7) acc' r'
  end.

Definition c_decode (w : Z) (r : list Z) : result (Z * list Z) DecodeError :=
  c_decode_aux w 0 0 r.

(** Reinterpret the low [w] bits as a two's complement [w]-bit integer
    ([as $signed]). *)
Definition to_signed (w z : Z) : Z :=
  let m := z mod 2 ^ w in if m <? 2 ^ (w - 1) then m else m - 2 ^ w.

(** Modelled from the spec: [musli_binary_common::int::zigzag::encode],
    absent from src: "(x << 1) XOR (x >> (width-1))", as a [w]-bit
    unsigned value ([>>] on a signed integer is arithmetic). *)
Definition zig_encode (w x : Z) : Z :=
  Z.land (Z.lxor (Z.shiftl x 1) (Z.shiftr x (w - 1))) (Z.ones w).

(** Modelled from the spec: [zigzag::decode]: "(u >> 1) XOR -(u & 1)". *)
Definition zig_decode (w u : Z) : Z :=
  to_signed w (Z.lxor (Z.shiftr u 1) (- Z.land u 1)).

(** musli-storage/src/integer_encoding.rs: [impl IntegerEncoding for Variable].
    The writer's output is the list of bytes written. *)
Definition encode_unsigned (w v : Z) : list Z := c_encode w v.

Definition decode_unsigned (w : Z) (r : list Z) : result (Z * list Z) DecodeError :=
  c_decode w r.

Definition encode_signed (w v : Z) : list Z := c_encode w (zig_encode w v).

Definition decode_signed (w : Z) (r : list Z) : result (Z * list Z) DecodeError :=
  match c_decode w r with
  | Ok (value, r') => Ok (zig_decode w value, r')
  | Err e => Err e
  end.

(** [impl UsizeEncoding for Variable] on a 64-bit target. *)
Definition decode_usize (r : list Z) : result (Z * list Z) DecodeError := c_decode 64 r.
Definition encode_usize (v : Z) : list Z := c_encode 64 v.

End Int.

(** ** musli-wire/src/de.rs: [WireDecoder] *)
Module Wire.
Import Int.

(** Modelled from the spec: [crate::tag] ([Tag], [Kind]) of musli-wire,
    absent from src. [de.rs] matches exhaustively on four kinds, the spec's
    "4-kind tag (Byte/Prefix/Sequence/Continuation)"; their bit patterns are
    the upper three bits of the spec's kind table, the low five bits carry
    the embedded data, and the all-ones data [0b11111] means "no embedded
    data" ([data() = None]). A byte with any other kind bits is rejected
    (spec: "other -> fail unknown tag kind"). *)
Inductive Kind := KByte | KPrefix | KSequence | KContinuation.

Definition DATA_MASK : Z := 31.

Definition kind_bits (k : Kind) : Z :=
  match k with
  | KByte => 32          (* 0b001 *)
  | KContinuation => 96  (* 0b011 *)
  | KPrefix => 128       (* 0b100 *)
  | KSequence => 160     (* 0b101 *)
  end.

(** [Tag::new(kind, data)] as a byte. *)
Definition tag_new (k : Kind) (data : Z) : Z := Z.lor (kind_bits k) data.

(** [Tag::from_byte(b).kind()]. *)
Definition tag_kind (b : Z) : option Kind :=
  let k := Z.shiftr b 5 in
  if k =? 1 then Some KByte
  else if k =? 3 then Some KContinuation
  else if k =? 4 then Some KPrefix
  else if k =? 5 then Some KSequence
  else None.

(** [Tag::from_byte(b).data()]. *)
Definition tag_data (b : Z) : option Z :=
  let d := Z.land b DATA_MASK in if d =? DATA_MASK then None else Some d.

Inductive WireError :=
| Read (e : DecodeError)
(** Raised only when the fuel of the model runs out; see [skip_any_top]. *)
| Exhausted.

(** [let len = if let Some(len) = tag.data() { len } else { L::decode_usize(..)? }]. *)
Definition tag_len (b : Z) (r : list Z) : result (Z * list Z) DecodeError :=
  match tag_data b with
  | Some len => Ok (len, r)
  | None => decode_usize r
  end.

(** [for _ in 0..len { skip(..)? }], with [k] bounding the iterations. *)
Fixpoint skip_n (skip1 : list Z -> result (list Z) WireError)
    (k : nat) (n : Z) (r : list Z) : result (list Z) WireError :=
  match k with
  | O => Err Exhausted
  | S k' =>
      if n <=? 0 then Ok r
      else match skip1 r with
           | Ok r' => skip_n skip1 k' (n - 1) r'
           | Err e => Err e
           end
  end.

(** [WireDecoder::skip_any]; the reader is the remaining slice and the
    result is the slice after the skipped value. [fuel] bounds the nesting
    and the loop of a sequence is bounded by the length of the rest of the
    input plus one: every skipped value reads at least its tag byte, so
    running into either bound means the real code would run out of input. *)
Fixpoint skip_any (fuel : nat) (r : list Z) {struct fuel} : result (list Z) WireError :=
  match fuel with
  | O => Err Exhausted
  | S fuel' =>
      match read_byte r with
      | Err e => Err (Read e)
      | Ok (b, r1) =>
          match tag_kind b with
          | None => Err (Read UnknownKind)
          | Some KByte =>
              match tag_data b with
              | None => match skip 1 r1 with Ok r2 => Ok r2 | Err e => Err (Read e) end
              | Some _ => Ok r1
              end
          | Some KPrefix =>
              match tag_len b r1 with
              | Err e => Err (Read e)
              | Ok (len, r2) =>
                  match skip len r2 with Ok r3 => Ok r3 | Err e => Err (Read e) end
              end
          | Some KSequence =>
              match tag_len b r1 with
              | Err e => Err (Read e)
              | Ok (len, r2) => skip_n (skip_any fuel') (S (length r2)) len r2
              end
          | Some KContinuation =>
              match tag_data b with
              | None =>
                  match c_decode 128 r1 with
                  | Ok (_, r2) => Ok r2
                  | Err e => Err (Read e)
                  end
              | Some _ => Ok r1
              end
          end
      end
  end.

(** Top level: one unit of fuel per input byte, plus one. *)
Definition skip_any_top (r : list Z) : result (list Z) WireError :=
  skip_any (S (length r)) r.

(** [WireDecoder::decode_sequence_len]. *)
Definition decode_sequence_len (r : list Z) : result (Z * list Z) DecodeError :=
  match read_byte r with
  | Err e => Err e
  | Ok (b, r1) =>
      match tag_kind b with
      | Some KSequence => tag_len b r1
      | _ => Err Expected
      end
  end.

(** [RemainingWireDecoder]: the number of items left and the reader. *)
Record RemainingWireDecoder := mkRemaining { remaining : Z; rest : list Z }.

(** [WireDecoder::shared_decode_pair_sequence], behind [decode_map],
    [decode_struct] and [decode_tuple]. *)
Definition shared_decode_pair_sequence (r : list Z)
  : result RemainingWireDecoder DecodeError :=
  match decode_sequence_len r with
  | Ok (len, r') => Ok (mkRemaining (len / 2) r')
  | Err e => Err e
  end.

Definition decode_struct (r : list Z) := shared_decode_pair_sequence r.

(** [PairsDecoder::next] for [RemainingWireDecoder]: [None] once
    [remaining] is zero, otherwise one pair decoder and one fewer left. *)
Definition pairs_next (d : RemainingWireDecoder) : option RemainingWireDecoder :=
  if remaining d =? 0 then None
  else Some (mkRemaining (remaining d - 1) (rest d)).

(** The number of pair decoders [next] hands out before returning [None]
    (the inner decoders are not consumed here); [k] bounds the loop. *)
Fixpoint pairs_yielded (k : nat) (d : RemainingWireDecoder) : nat :=
  match k with
  | O => O
  | S k' => match pairs_next d with None => O | Some d' => S (pairs_yielded k' d') end
  end.

(** *** The encoder side

    Modelled from the spec: the wire encoder ([en.rs] and the typed integer
    encoding of musli-wire) is absent from src. Encode rules of the spec:
    a byte below [31] is embedded in a [Byte] tag, else the tag has the
    sentinel and the byte follows; an unsigned integer is a [Continuation]
    tag, embedded when small (the decoder above reads the continuation
    bytes only when the tag has no embedded data), else followed by its
    continuation encoding; bytes are a [Prefix] tag with their length
    (embedded when below [31], else continuation-encoded) and the raw bytes;
    a sequence is a [Sequence] tag with its length and its elements. A map
    or struct is written as [shared_decode_pair_sequence] reads it back: a
    [Sequence] tag whose length counts keys and values, then each key
    followed by its value. *)
Local Set Warnings "-register-all".

Inductive WireValue :=
| WByte (b : Z)
| WUnsigned (v : Z)
| WBytes (bs : list Z)
| WSeq (xs : list WireValue)
| WMap (kvs : list (WireValue * WireValue)).

(** [Tag::with_len] followed by the continuation-encoded length if not embedded. *)
Definition encode_len (k : Kind) (n : Z) : list Z :=
  if n <? DATA_MASK then [tag_new k n] else tag_new k DATA_MASK :: encode_usize n.

Fixpoint encode (v : WireValue) : list Z :=
  match v with
  | WByte b => if b <? DATA_MASK then [tag_new KByte b] else [tag_new KByte DATA_MASK; b]
  | WUnsigned n =>
      if n <? DATA_MASK then [tag_new KContinuation n]
      else tag_new KContinuation DATA_MASK :: c_encode 128 n
  | WBytes bs => encode_len KPrefix (Z.of_nat (length bs)) ++ bs
  | WSeq xs => encode_len KSequence (Z.of_nat (length xs)) ++ flat_map encode xs
  | WMap kvs =>
      encode_len KSequence (2 * Z.of_nat (length kvs))
        ++ flat_map (fun kv => encode (fst kv) ++ encode (snd kv)) kvs
  end.

Definition is_u8 (b : Z) : bool := (0 <=? b) && (b <? 256).

(** Well-formed values: bytes in [0, 256), integers in [0, 2^128),
    lengths below [2^64]. *)
Fixpoint wf (v : WireValue) : bool :=
  match v with
  | WByte b => is_u8 b
  | WUnsigned n => (0 <=? n) && (n <? 2 ^ 128)
  | WBytes bs => forallb is_u8 bs && (Z.of_nat (length bs) <? 2 ^ 64)
  | WSeq xs => forallb wf xs && (Z.of_nat (length xs) <? 2 ^ 64)
  | WMap kvs =>
      forallb (fun kv => wf (fst kv) && wf (snd kv)) kvs
        && (2 * Z.of_nat (length kvs) <? 2 ^ 64)
  end.

(** The keys and values of a map, in the order they are written. *)
Definition pair_items (kvs : list (WireValue * WireValue)) : list WireValue :=
  flat_map (fun kv => [fst kv; snd kv]) kvs.

End Wire.

(** ** musli-json: the slice parser and the integer parser *)
Module Json.

(** [integer::Error]. *)
Inductive IntError := IOverflow | IDecimal.

(** [ParseErrorKind], restricted to the kinds the modelled code raises;
    [Message] stands for the [Error::message(..)] errors. *)
Inductive ParseErrorKind :=
| Eof
| InvalidNumeric
| IntegerError (e : IntError)
| ExpectedValue
| ExpectedOpenBrace
| ExpectedOpenBracket
| ExpectedLiteral
| InvalidString
| Message.

(** [ParseError::spanned(start, end, kind)]; [ParseError::at(pos, kind)]
    is the span [pos..pos]. *)
Record ParseError := spanned { span_start : nat; span_end : nat; err_kind : ParseErrorKind }.
Definition at_ (p : nat) (k : ParseErrorKind) : ParseError := spanned p p k.

(** Modelled from the spec: the [Parser] trait and [SliceParser] of
    musli-json's [reader] module, absent from src: a byte buffer and the
    position reached in it. *)
Record Parser := mkParser { input : list Z; pos : nat }.

(** Code running on a [&mut P] parser: the parser state is threaded
    through, and it keeps whatever was consumed before an error. *)
Definition PM (A : Type) : Type := Parser -> result A ParseError * Parser.

Definition ret {A} (a : A) : PM A := fun p => (Ok a, p).
Definition fail {A} (e : ParseError) : PM A := fun p => (Err e, p).
Definition bind {A B} (m : PM A) (k : A -> PM B) : PM B :=
  fun p => match m p with
           | (Ok a, p') => k a p'
           | (Err e, p') => (Err e, p')
           end.
Definition get_pos : PM nat := fun p => (Ok (pos p), p).

Notation "x <- m ;; k" := (bind m (fun x => k))
  (at level 61, m at next level, right associativity).
Notation "m ;;; k" := (bind m (fun _ => k)) (at level 61, right associativity).

(** [Parser::peek_byte]: the byte at the position, [None] at the end. *)
Definition peek_byte : PM (option Z) :=
  fun p => (Ok (nth_error (input p) (pos p)), p).

(** [Parser::read_byte]. *)
Definition read_byte : PM Z :=
  fun p => match nth_error (input p) (pos p) with
           | Some b => (Ok b, mkParser (input p) (S (pos p)))
           | None => (Err (at_ (pos p) Eof), p)
           end.

(** [Parser::skip(n)]. *)
Definition skip (n : nat) : PM unit :=
  fun p => if (pos p + n <=? length (input p))%nat
           then (Ok tt, mkParser (input p) (pos p + n))
           else (Err (at_ (pos p) Eof), p).

(** The bytes remaining after the position: bounds every loop that
    consumes one byte per iteration. *)
Definition remaining_len (p : Parser) : nat := length (input p) - pos p.

(** [while let Some(true) = p.peek_byte()?.map(cond) { body }], [k] bounding
    the iterations. *)
Fixpoint while_peek {A} (k : nat) (cond : Z -> bool) (body : A -> PM A) (a : A) : PM A :=
  match k with
  | O => ret a
  | S k' =>
      b <- peek_byte ;;
      match b with
      | Some b => if cond b then (a' <- body a ;; while_peek k' cond body a') else ret a
      | None => ret a
      end
  end.

(** A loop that reads one byte per iteration runs at most [remaining_len]
    times; one more unit of bound lets it see the end of the input. *)
Definition while_peek_top {A} (cond : Z -> bool) (body : A -> PM A) (a : A) : PM A :=
  fun p => while_peek (S (remaining_len p)) cond body a p.

(** *** reader/integer.rs *)

(** The unsigned target types, by bit width and length of their [POWS]
    table ([POWS[i] = 10^i]). *)
Record UTy := mkUTy { bits : Z; pows_len : Z }.
Definition U8 := mkUTy 8 3.
Definition U16 := mkUTy 16 5.
Definition U32 := mkUTy 32 10.
Definition U64 := mkUTy 64 20.
Definition U128 := mkUTy 128 32.
Definition Usize := mkUTy 64 20.

Definition umax (t : UTy) : Z := 2 ^ bits t - 1.

Definition checked_mul (t : UTy) (a b : Z) : option Z :=
  if a * b <=? umax t then Some (a * b) else None.
Definition checked_add (t : UTy) (a b : Z) : option Z :=
  if a + b <=? umax t then Some (a + b) else None.
(** [<$unsigned>::checked_pow]: [None] exactly when the power does not fit
    (exponentiation by squaring only squares when a later bit needs it). *)
Definition checked_pow (t : UTy) (b e : Z) : option Z :=
  if b ^ e <=? umax t then Some (b ^ e) else None.

(** [Unsigned::checked_pow10]. *)
Definition checked_pow10 (t : UTy) (x e : Z) : option Z :=
  if e <? pows_len t then checked_mul t x (10 ^ e)
  else match checked_pow t 10 e with
       | Some p => checked_mul t x p
       | None => None
       end.

Definition checked_mul10 (t : UTy) (x : Z) : option Z := checked_mul t x 10.

(** [Unsigned::div_mod_ten]. *)
Definition div_mod_ten (x : Z) : option Z :=
  if x mod 10 =? 0 then Some (x / 10) else None.

(** [Mantissa { value, exp }], [Exponent { is_negative, value }] and
    [Parts { base, m, e }]. *)
Record Parts := mkParts {
  base : Z; m_value : Z; m_exp : Z; e_is_negative : bool; e_value : Z }.

Fixpoint div_loop (n : nat) (b : Z) : result Z IntError :=
  match n with
  | O => Ok b
  | S n' => match div_mod_ten b with Some b' => div_loop n' b' | None => Err IDecimal end
  end.

(** [Parts::compute]. *)
Definition compute (t : UTy) (ps : Parts) : result Z IntError :=
  let '(mkParts b mv mexp eneg ev) := ps in
  if ev =? 0 then
    (if negb (mv =? 0) then Err IDecimal else Ok b)
  else if negb eneg then
    (* [e.value.checked_sub(m.exp)] on [u32] *)
    if ev <? mexp then Err IDecimal else
    let mantissa_exp := ev - mexp in
    let b' := if b =? 0 then Some b else checked_pow10 t b ev in
    match b' with
    | None => Err IOverflow
    | Some b' =>
        match match checked_pow10 t mv mantissa_exp with
              | Some m => checked_add t b' m
              | None => None
              end with
        | Some r => Ok r
        | None => Err IOverflow
        end
    end
  else if negb (mv =? 0) then Err IDecimal
  else div_loop (Z.to_nat ev) b.

Definition is_digit (b : Z) : bool := (48 <=? b) && (b <=? 57).
Definition is_digit_nonzero (b : Z) : bool := (49 <=? b) && (b <=? 57).

(** [digit]: [checked_mul10], then an unchecked [out + digit] that wraps
    around the width (a release build; a debug build panics there). *)
Definition digit (t : UTy) (out : Z) (start : nat) : PM Z :=
  match checked_mul10 t out with
  | None => pos_ <- get_pos ;; fail (spanned start pos_ (IntegerError IOverflow))
  | Some v => b <- read_byte ;; ret ((v + (b - 48)) mod 2 ^ bits t)
  end.

(** [decode_zeros] ([count] is a [u32]). *)
Definition decode_zeros : PM Z :=
  while_peek_top (fun b => b =? 48) (fun c => skip 1 ;;; ret ((c + 1) mod 2 ^ 32)) 0.

Definition U32T := U32.

(** [decode_exponent]. *)
Definition decode_exponent (start : nat) : PM (bool * Z) :=
  b <- peek_byte ;;
  neg <- (match b with
          | Some 45 => skip 1 ;;; ret true   (* '-' *)
          | Some 43 => skip 1 ;;; ret false  (* '+' *)
          | _ => ret false
          end) ;;
  v <- while_peek_top is_digit (fun v => digit U32T v start) 0 ;;
  ret (neg, v).

(** The fraction loop of [decode_unsigned_inner]: state [(m.value, m.exp, zeros)].
    [m.exp] is a [u32] updated with unchecked (wrapping) additions. *)
Definition fraction_step (t : UTy) (start : nat) (st : Z * Z * Z) : PM (Z * Z * Z) :=
  let '(mv, mexp, zeros) := st in
  mvz <- (if 0 <? zeros then
            match checked_pow10 t mv zeros with
            | Some mv' => ret (mv', (mexp + zeros) mod 2 ^ 32)
            | None => pos_ <- get_pos ;; fail (spanned start pos_ (IntegerError IOverflow))
            end
          else ret (mv, mexp)) ;;
  let '(mv1, mexp1) := mvz in
  mv2 <- digit t mv1 start ;;
  zeros' <- decode_zeros ;;
  ret (mv2, (mexp1 + 1) mod 2 ^ 32, zeros').

(** [decode_unsigned_inner]. *)
Definition decode_unsigned_inner (t : UTy) (start : nat) : PM Parts :=
  b <- read_byte ;;
  base <- (if b =? 48 then ret 0
           else if is_digit_nonzero b then
             while_peek_top is_digit (fun base => digit t base start) (b - 48)
           else pos_ <- get_pos ;; fail (spanned start pos_ InvalidNumeric)) ;;
  dot <- peek_byte ;;
  m <- (match dot with
        | Some 46 => (* '.' *)
            skip 1 ;;;
            z0 <- decode_zeros ;;
            st <- while_peek_top is_digit (fraction_step t start) (0, z0, 0) ;;
            let '(mv, mexp, _) := st in ret (mv, mexp)
        | _ => ret (0, 0)
        end) ;;
  eb <- peek_byte ;;
  e <- (match eb with
        | Some 101 | Some 69 => skip 1 ;;; decode_exponent start (* 'e' | 'E' *)
        | _ => ret (false, 0)
        end) ;;
  ret (mkParts base (fst m) (snd m) (fst e) (snd e)).

(** [decode_unsigned]. *)
Definition decode_unsigned (t : UTy) : PM Parts :=
  start <- get_pos ;; decode_unsigned_inner t start.

(** [parse_unsigned]. *)
Definition parse_unsigned (t : UTy) : PM Z :=
  start <- get_pos ;;
  ps <- decode_unsigned t ;;
  match compute t ps with
  | Ok v => ret v
  | Err e => pos_ <- get_pos ;; fail (spanned start pos_ (IntegerError e))
  end.

(** [skip_number]. *)
Definition skip_number : PM unit :=
  start <- get_pos ;;
  b <- peek_byte ;;
  (match b with Some 45 => skip 1 | _ => ret tt end) ;;;
  b <- read_byte ;;
  (if b =? 48 then ret tt
   else if is_digit_nonzero b then
     while_peek_top is_digit_nonzero (fun u => skip 1 ;;; ret u) tt
   else pos_ <- get_pos ;; fail (spanned start pos_ InvalidNumeric)) ;;;
  b <- peek_byte ;;
  (match b with
   | Some 46 => skip 1 ;;; while_peek_top is_digit (fun u => skip 1 ;;; ret u) tt
   | _ => ret tt
   end) ;;;
  b <- peek_byte ;;
  match b with
  | Some 101 | Some 69 =>
      skip 1 ;;;
      b <- peek_byte ;;
      (match b with Some 45 | Some 43 => skip 1 | _ => ret tt end) ;;;
      while_peek_top is_digit (fun u => skip 1 ;;; ret u) tt
  | _ => ret tt
  end.

End Json.

(** ** musli-json/src/de.rs: the JSON decoder *)
Module JsonDe.
Import Json.

(** Modelled from the spec: [Token] and [Parser::peek] of musli-json's
    [reader] module, absent from src. "Whitespace is skipped between tokens
    on decode"; the token is read off the first byte after it. *)
Inductive Token :=
| OpenBrace | CloseBrace | OpenBracket | CloseBracket | Colon | Comma
| TString | Number | Null | True | False | TEof | Unexpected.

Definition token_of_byte (b : Z) : Token :=
  if b =? 123 then OpenBrace          (* '{' *)
  else if b =? 125 then CloseBrace    (* '}' *)
  else if b =? 91 then OpenBracket    (* '[' *)
  else if b =? 93 then CloseBracket   (* ']' *)
  else if b =? 58 then Colon          (* ':' *)
  else if b =? 44 then Comma          (* ',' *)
  else if b =? 34 then TString        (* double quote *)
  else if (b =? 45) || is_digit b then Number
  else if b =? 110 then Null          (* 'n' *)
  else if b =? 116 then True          (* 't' *)
  else if b =? 102 then False         (* 'f' *)
  else Unexpected.

Definition is_value (t : Token) : bool :=
  match t with
  | OpenBrace | OpenBracket | TString | Number | Null | True | False => true
  | _ => false
  end.

Definition is_string (t : Token) : bool :=
  match t with TString => true | _ => false end.

Definition is_whitespace (b : Z) : bool :=
  (b =? 32) || (b =? 9) || (b =? 10) || (b =? 13).

(** [Parser::skip_whitespace]. *)
Definition skip_whitespace : PM unit :=
  while_peek_top is_whitespace (fun u => skip 1 ;;; ret u) tt.

(** [Parser::peek]. *)
Definition peek : PM Token :=
  skip_whitespace ;;;
  b <- peek_byte ;;
  match b with
  | Some b => ret (token_of_byte b)
  | None => ret TEof
  end.

(** Modelled from the spec: [Parser::parse_exact] for the literals
    [true], [false] and [null]: the next bytes must be the literal. *)
Fixpoint parse_exact (lit : list Z) : PM unit :=
  match lit with
  | [] => ret tt
  | c :: lit' =>
      p0 <- get_pos ;;
      b <- read_byte ;;
      if b =? c then parse_exact lit' else fail (at_ p0 ExpectedLiteral)
  end.

(** [StringReference]. *)
Inductive StringReference := Borrowed (bs : list Z) | Scratch (bs : list Z).

(** Modelled from the spec: [Parser::parse_string], absent from src,
    called after the opening quote. Bytes up to the closing quote are
    returned borrowed from the input when no escape occurs; otherwise they
    are unescaped into the scratch buffer. The two-character escapes
    (a backslash followed by a double quote, a backslash, a slash, b, f,
    n, r or t) are decoded; a backslash-u escape is outside this model and reported as [InvalidString]. *)
Definition unescape (c : Z) : option Z :=
  if c =? 34 then Some 34 else if c =? 92 then Some 92
  else if c =? 47 then Some 47 else if c =? 98 then Some 8
  else if c =? 102 then Some 12 else if c =? 110 then Some 10
  else if c =? 114 then Some 13 else if c =? 116 then Some 9
  else None.

Fixpoint scan_string (k : nat) (escaped : bool) (acc : list Z) : PM StringReference :=
  match k with
  | O => p0 <- get_pos ;; fail (at_ p0 Eof)
  | S k' =>
      p0 <- get_pos ;;
      b <- read_byte ;;
      if b =? 34 then
        ret (if escaped then Scratch (rev acc) else Borrowed (rev acc))
      else if b =? 92 then
        (c <- read_byte ;;
         match unescape c with
         | Some u => scan_string k' true (u :: acc)
         | None => fail (at_ p0 InvalidString)
         end)
      else scan_string k' escaped (b :: acc)
  end.

Definition parse_string : PM StringReference :=
  fun p => scan_string (S (remaining_len p)) false [] p.

(** Modelled from the spec: [string::skip_string], called at the opening
    quote: the whole string, escapes included, is skipped. *)
Definition skip_string : PM unit :=
  skip 1 ;;; (_ <- parse_string ;; ret tt).

(** *** Object keys *)

(** A value visitor over [[u8]]: [visit_borrowed] defaults to [visit_any]
    (the only method [KeyUnsignedVisitor] implements). *)
Definition Visitor (A : Type) : Type := list Z -> result A ParseError.

(** [KeyUnsignedVisitor::visit_any]: the integer parser over a fresh
    [SliceParser] on the string's bytes. [de.rs] expects
    [integer::decode_unsigned] to yield the integer itself, which in
    [reader/integer.rs] is [parse_unsigned] (the parts, then [compute]). *)
Definition key_unsigned_visitor (t : UTy) : Visitor Z :=
  fun bytes => fst (parse_unsigned t (mkParser bytes 0)).

(** [JsonKeyDecoder::decode_escaped_bytes]. *)
Definition decode_escaped_bytes {A} (visitor : Visitor A) : PM A :=
  actual <- peek ;;
  if negb (is_string actual) then (p0 <- get_pos ;; fail (at_ p0 Message))
  else
    skip 1 ;;;
    sr <- parse_string ;;
    match sr with
    | Borrowed bs => fun p => (visitor bs, p)
    | Scratch bs => fun p => (visitor bs, p)
    end.

(** [JsonKeyDecoder::decode_u8] .. [decode_u128], [decode_usize]. *)
Definition key_decode_unsigned (t : UTy) : PM Z :=
  decode_escaped_bytes (key_unsigned_visitor t).

(** *** [JsonDecoder::skip_any] *)

(** The end of [skip_any]: it returns, or it reaches [todo!()] and panics. *)
Inductive Outcome :=
| Returned (r : result unit ParseError) (p : Parser)
| Panicked (p : Parser)
| OutOfFuel.

(** [JsonSequenceDecoder::new] and [JsonObjectDecoder::new]. *)
Definition open_with (tok : Token) (err : ParseErrorKind) : PM unit :=
  skip_whitespace ;;;
  actual <- peek ;;
  match actual, tok with
  | OpenBrace, OpenBrace | OpenBracket, OpenBracket => skip 1
  | _, _ => p0 <- get_pos ;; fail (at_ p0 err)
  end.

(** The [loop] of [SequenceDecoder::next] ([accept = is_value], closing
    [']']) and of [PairsDecoder::next] ([accept = is_string], closing
    ['}']); [first] is the flag taken with [mem::take]. *)
Fixpoint next_loop (k : nat) (accept : Token -> bool) (close : Token) (first : bool)
  : PM (option unit) :=
  match k with
  | O => ret None
  | S k' =>
      token <- peek ;;
      if accept token then ret (Some tt)
      else match token, close with
           | Comma, _ => if first then fail (at_ 0 Message)
                         else skip 1 ;;; next_loop k' accept close first
           | CloseBracket, CloseBracket | CloseBrace, CloseBrace =>
               skip 1 ;;; ret None
           | _, _ => p0 <- get_pos ;; fail (at_ p0 Message)
           end
  end.

Definition next_top (accept : Token -> bool) (close : Token) (first : bool)
  : PM (option unit) :=
  fun p => next_loop (S (remaining_len p)) accept close first p.

(** [while let Some(item) = seq.next()? { item.skip_any()?; }]: [Ok p] when
    the loop ends; [skip1] is the recursive [skip_any]. *)
Fixpoint seq_items (skip1 : Parser -> Outcome) (k : nat) (first : bool) (p : Parser)
  : Outcome :=
  match k with
  | O => OutOfFuel
  | S k' =>
      match next_top is_value CloseBracket first p with
      | (Err e, p') => Returned (Err e) p'
      | (Ok None, p') => Returned (Ok tt) p'
      | (Ok (Some _), p') =>
          match skip1 p' with
          | Returned (Ok _) p'' => seq_items skip1 k' false p''
          | o => o
          end
      end
  end.

(** [skip_second]: a colon, then the value. *)
Definition skip_second (skip1 : Parser -> Outcome) (p : Parser) : Outcome :=
  match peek p with
  | (Err e, p') => Returned (Err e) p'
  | (Ok Colon, p') =>
      match skip 1 p' with
      | (Ok _, p'') => skip1 p''
      | (Err e, p'') => Returned (Err e) p''
      end
  | (Ok _, p') => Returned (Err (at_ (pos p') Message)) p'
  end.

(** [while let Some(mut pair) = object.next()? { pair.first()?.skip_any()?;
    pair.skip_second()?; }]. *)
Fixpoint object_items (skip1 : Parser -> Outcome) (k : nat) (first : bool) (p : Parser)
  : Outcome :=
  match k with
  | O => OutOfFuel
  | S k' =>
      match next_top is_string CloseBrace first p with
      | (Err e, p') => Returned (Err e) p'
      | (Ok None, p') => Returned (Ok tt) p'
      | (Ok (Some _), p') =>
          match skip1 p' with
          | Returned (Ok _) p'' =>
              match skip_second skip1 p'' with
              | Returned (Ok _) p3 => object_items skip1 k' false p3
              | o => o
              end
          | o => o
          end
      end
  end.

Definition of_pm (m : PM unit) (p : Parser) : Outcome :=
  let '(r, p') := m p in Returned r p'.

Fixpoint skip_any (fuel : nat) (p : Parser) {struct fuel} : Outcome :=
  match fuel with
  | O => OutOfFuel
  | S fuel' =>
      let start := pos p in
      match peek p with
      | (Err e, p1) => Returned (Err e) p1
      | (Ok OpenBrace, p1) =>
          match open_with OpenBrace ExpectedOpenBrace p1 with
          | (Err e, p2) => Returned (Err e) p2
          | (Ok _, p2) =>
              match object_items (skip_any fuel') (S (remaining_len p2)) true p2 with
              | Returned (Ok _) p3 => Panicked p3 (* todo!() *)
              | o => o
              end
          end
      | (Ok OpenBracket, p1) =>
          match open_with OpenBracket ExpectedOpenBracket p1 with
          | (Err e, p2) => Returned (Err e) p2
          | (Ok _, p2) =>
              match seq_items (skip_any fuel') (S (remaining_len p2)) true p2 with
              | Returned (Ok _) p3 => Panicked p3 (* todo!() *)
              | o => o
              end
          end
      | (Ok Null, p1) => of_pm (parse_exact [110; 117; 108; 108]) p1
      | (Ok True, p1) => of_pm (parse_exact [116; 114; 117; 101]) p1
      | (Ok False, p1) => of_pm (parse_exact [102; 97; 108; 115; 101]) p1
      | (Ok Number, p1) => of_pm skip_number p1
      | (Ok TString, p1) => of_pm skip_string p1
      | (Ok _, p1) => Returned (Err (spanned start (pos p1) ExpectedValue)) p1
      end
  end.

(** Every nested call reads at least one byte. *)
Definition skip_any_top (p : Parser) : Outcome := skip_any (S (remaining_len p)) p.

End JsonDe.

(** ** musli-binary-common/src/reader.rs: [SliceReader] and [WithPosition] *)
Module ReaderExt.
Import Reader.

(** [usize] and pointers are 64 bits wide. *)
Definition USIZE_MOD : Z := 2 ^ 64.

(** [pub struct SliceReader<'de> { range: Range<*const u8>, .. }]: the
    addresses of the first unread byte and one past the last one. *)
Record SliceReader := mkSliceReader { range_start : Z; range_end : Z }.

(** [SliceReader::new(slice)]: [slice.as_ptr_range()] for a slice of [len]
    bytes starting at address [base]. *)
Definition new (base : Z) (len : nat) : SliceReader :=
  mkSliceReader base (base + Z.of_nat len).

(** [bounds_check_add]: [range.start.wrapping_add(len)], refused when it
    lies past the end or wrapped around below the start. *)
Definition bounds_check_add (range : SliceReader) (len : Z) : result Z SliceReaderError :=
  let outcome := (range_start range + len) mod USIZE_MOD in
  if (range_end range <? outcome) || (outcome <? range_start range)
  then Err BufferUnderflow
  else Ok outcome.

(** [slice::from_raw_parts(start, n)]: the [n] bytes of the memory [mem]
    from address [start] on. *)
Fixpoint from_raw_parts (mem : Z -> Z) (start : Z) (n : nat) : list Z :=
  match n with
  | O => []
  | S n' => mem start :: from_raw_parts mem (start + 1) n'
  end.

(** [impl Reader for SliceReader]. *)
Definition skip (n : nat) (range : SliceReader) : result unit SliceReaderError * SliceReader :=
  match bounds_check_add range (Z.of_nat n) with
  | Ok outcome => (Ok tt, mkSliceReader outcome (range_end range))
  | Err e => (Err e, range)
  end.

Definition read_bytes (mem : Z -> Z) (n : nat) (range : SliceReader)
  : result (list Z) SliceReaderError * SliceReader :=
  match bounds_check_add range (Z.of_nat n) with
  | Ok outcome => (Ok (from_raw_parts mem (range_start range) n),
                   mkSliceReader outcome (range_end range))
  | Err e => (Err e, range)
  end.

(** [read(buf)]: [ptr::copy_nonoverlapping] fills [buf]; the result is the
    filled buffer. *)
Definition read (mem : Z -> Z) (buf : list Z) (range : SliceReader)
  : result (list Z) SliceReaderError * SliceReader :=
  match bounds_check_add range (Z.of_nat (length buf)) with
  | Ok outcome => (Ok (from_raw_parts mem (range_start range) (length buf)),
                   mkSliceReader outcome (range_end range))
  | Err e => (Err e, range)
  end.

(** The bytes a [SliceReader] has left to hand out. *)
Definition unread (mem : Z -> Z) (range : SliceReader) : list Z :=
  from_raw_parts mem (range_start range) (Z.to_nat (range_end range - range_start range)).

Section WithPosition.
(** The wrapped reader [R] with its error type and operations. *)
Context {R E : Type}.
Context (r_skip : nat -> R -> result unit E * R)
        (r_read_bytes : nat -> R -> result (list Z) E * R)
        (r_read : list Z -> R -> result (list Z) E * R)
        (r_read_byte : R -> result Z E * R)
        (r_read_array : nat -> R -> result (list Z) E * R).

(** [pub struct WithPosition<R> { pos: usize, reader: R }]. *)
Record WithPosition := mkWithPosition { pos : nat; reader : R }.

(** [Reader::with_position]. *)
Definition with_position (r : R) : WithPosition := mkWithPosition 0 r.

(** [self.reader.op(..)?; self.pos += ..]: the wrapped reader keeps
    whatever state the failing operation left it in. *)
Definition wp_skip (n : nat) (w : WithPosition) : result unit E * WithPosition :=
  let '(res, r') := r_skip n (reader w) in
  match res with
  | Ok _ => (Ok tt, mkWithPosition (pos w + n) r')
  | Err e => (Err e, mkWithPosition (pos w) r')
  end.

Definition wp_read_bytes (n : nat) (w : WithPosition) : result (list Z) E * WithPosition :=
  let '(res, r') := r_read_bytes n (reader w) in
  match res with
  | Ok bytes => (Ok bytes, mkWithPosition (pos w + length bytes) r')
  | Err e => (Err e, mkWithPosition (pos w) r')
  end.

Definition wp_read (buf : list Z) (w : WithPosition) : result (list Z) E * WithPosition :=
  let '(res, r') := r_read buf (reader w) in
  match res with
  | Ok out => (Ok out, mkWithPosition (pos w + length buf) r')
  | Err e => (Err e, mkWithPosition (pos w) r')
  end.

Definition wp_read_byte (w : WithPosition) : result Z E * WithPosition :=
  let '(res, r') := r_read_byte (reader w) in
  match res with
  | Ok b => (Ok b, mkWithPosition (pos w + 1) r')
  | Err e => (Err e, mkWithPosition (pos w) r')
  end.

Definition wp_read_array (n : nat) (w : WithPosition) : result (list Z) E * WithPosition :=
  let '(res, r') := r_read_array n (reader w) in
  match res with
  | Ok array => (Ok array, mkWithPosition (pos w + n) r')
  | Err e => (Err e, mkWithPosition (pos w) r')
  end.

End WithPosition.

Arguments WithPosition : clear implicits.

(** [impl PositionedReader for Limit<R>]: [pos()] is the wrapped reader's. *)
Definition limit_pos {R : Type} (l : Limit (WithPosition R)) : nat := pos (Reader.reader l).

(** A call a client makes on a reader, with its argument. *)
Inductive ReaderCall :=
| CallSkip (n : nat)
| CallReadBytes (n : nat)
| CallRead (buf : list Z)
| CallReadByte
| CallReadArray (n : nat).

(** [slice.with_position().limit(n)]: the stack the wire decoder reads a
    packed value through. *)
Definition Stack := Limit (WithPosition (list Z)).

Definition stack_call (c : ReaderCall) (l : Stack) : Stack :=
  match c with
  | CallSkip n =>
      snd (limit_skip (wp_skip slice_skip) OutOfBounds n l)
  | CallReadBytes n =>
      snd (limit_read_bytes (wp_read_bytes slice_read_bytes) OutOfBounds n l)
  | CallRead buf =>
      snd (limit_read (wp_read slice_read) OutOfBounds buf l)
  | CallReadByte =>
      snd (limit_read_byte (wp_read_byte slice_read_byte) OutOfBounds l)
  | CallReadArray n =>
      snd (limit_read_array (wp_read_array slice_read_array) OutOfBounds n l)
  end.

(** [pos] counts exactly the bytes taken off the slice between [w] and [w']. *)
Definition tracks (w w' : WithPosition (list Z)) : Prop :=
  (pos w <= pos w')%nat /\ reader w' = skipn (pos w' - pos w) (reader w).

(** The stack after a client's calls, each made whatever the previous
    ones returned. *)
Definition run_calls (cs : list ReaderCall) (l : Stack) : Stack :=
  fold_left (fun l c => stack_call c l) cs l.

End ReaderExt.

(** ** musli-wire/src/de.rs: the typed decoders of [WireDecoder] *)
Module WireDe.
Import Int Wire.

(** The errors of the decoders below: the reader's, and the messages of
    [de.rs] ([Expected], [BadBoolean], [ExpectedOption], [BadLength],
    "tried to decode empty value"); positions are not modelled.
    [DExhausted] is raised only when the recursion bound of the model runs
    out. *)
Inductive DeError :=
| DRead (e : DecodeError)
| DSkip (e : WireError)
| DExpected (k : Kind)
| DBadBoolean
| DExpectedOption
| DBadLength (actual expected : Z)
| DEmpty
| DExhausted.

Definition lift {A : Type} (x : result A DecodeError) : result A DeError :=
  match x with Ok a => Ok a | Err e => Err (DRead e) end.

(** [read_bytes(n)] on a slice reader. *)
Definition read_bytes (n : Z) (r : list Z) : result (list Z * list Z) DecodeError :=
  if Z.of_nat (length r) <? n then Err Underflow
  else Ok (firstn (Z.to_nat n) r, skipn (Z.to_nat n) r).

(** [WireDecoder::decode_prefix]. *)
Definition decode_prefix (r : list Z) : result (Z * list Z) DeError :=
  match read_byte r with
  | Err e => Err (DRead e)
  | Ok (b, r1) =>
      match tag_kind b with
      | Some KPrefix => lift (tag_len b r1)
      | _ => Err (DExpected KPrefix)
      end
  end.

(** [decode_pack]: the prefix length becomes the budget of a [Limit]
    over the reader. *)
Definition decode_pack (r : list Z) : result (Reader.Limit (list Z)) DeError :=
  match decode_prefix r with
  | Ok (len, r1) => Ok (Reader.mkLimit (Z.to_nat len) r1)
  | Err e => Err e
  end.

(** [decode_array::<N>]. *)
Definition decode_array (N : Z) (r : list Z) : result (list Z * list Z) DeError :=
  match decode_prefix r with
  | Err e => Err e
  | Ok (len, r1) =>
      if negb (len =? N) then Err (DBadLength len N)
      else lift (read_bytes N r1)
  end.

(** [decode_bytes], handing the bytes to the visitor. *)
Definition decode_bytes (r : list Z) : result (list Z * list Z) DeError :=
  match read_byte r with
  | Err e => Err (DRead e)
  | Ok (b, r1) =>
      match tag_kind b with
      | Some KPrefix =>
          match tag_len b r1 with
          | Err e => Err (DRead e)
          | Ok (len, r2) => lift (read_bytes len r2)
          end
      | _ => Err (DExpected KPrefix)
      end
  end.

(** [decode_bool]: [FALSE = Tag::new(Kind::Byte, 0)], [TRUE = Tag::new(Kind::Byte, 1)]. *)
Definition decode_bool (r : list Z) : result (bool * list Z) DeError :=
  match read_byte r with
  | Err e => Err (DRead e)
  | Ok (b, r1) =>
      if b =? tag_new KByte 0 then Ok (false, r1)
      else if b =? tag_new KByte 1 then Ok (true, r1)
      else Err DBadBoolean
  end.

(** [decode_u8]. *)
Definition decode_u8 (r : list Z) : result (Z * list Z) DeError :=
  match read_byte r with
  | Err e => Err (DRead e)
  | Ok (b, r1) =>
      match tag_kind b with
      | Some KByte =>
          match tag_data b with
          | Some d => Ok (d, r1)
          | None => lift (read_byte r1)
          end
      | _ => Err (DExpected KByte)
      end
  end.

(** [decode_i8]: [self.decode_u8()? as i8]. *)
Definition decode_i8 (r : list Z) : result (Z * list Z) DeError :=
  match decode_u8 r with
  | Ok (b, r1) => Ok (to_signed 8 b, r1)
  | Err e => Err e
  end.

(** [decode_option]: [NONE = Tag::new(Kind::Sequence, 0)],
    [SOME = Tag::new(Kind::Sequence, 1)]; [Some(self)] is the same decoder,
    reading on after the tag. *)
Definition decode_option (r : list Z) : result (option unit * list Z) DeError :=
  match read_byte r with
  | Err e => Err (DRead e)
  | Ok (b, r1) =>
      if b =? tag_new KSequence 0 then Ok (None, r1)
      else if b =? tag_new KSequence 1 then Ok (Some tt, r1)
      else Err DExpectedOption
  end.

(** [shared_decode_sequence], behind [decode_sequence]. *)
Definition shared_decode_sequence (r : list Z) : result RemainingWireDecoder DecodeError :=
  match decode_sequence_len r with
  | Ok (len, r') => Ok (mkRemaining len r')
  | Err e => Err e
  end.

Definition decode_sequence (r : list Z) := shared_decode_sequence r.

(** [SequenceDecoder::next] for [RemainingWireDecoder]. *)
Definition sequence_next (d : RemainingWireDecoder) : option RemainingWireDecoder :=
  if remaining d =? 0 then None
  else Some (mkRemaining (remaining d - 1) (rest d)).

Fixpoint sequence_yielded (k : nat) (d : RemainingWireDecoder) : nat :=
  match k with
  | O => O
  | S k' => match sequence_next d with None => O | Some d' => S (sequence_yielded k' d') end
  end.

(** [VariantWireDecoder { empty, decoder }]. *)
Record VariantWireDecoder := mkVariant { v_empty : bool; v_rest : list Z }.

(** [decode_variant]: a sequence tag holding one item (the variant tag
    alone) or two (tag and value). *)
Definition decode_variant (r : list Z) : result VariantWireDecoder DeError :=
  match read_byte r with
  | Err e => Err (DRead e)
  | Ok (b, r1) =>
      match tag_kind b with
      | Some KSequence =>
          match tag_data b with
          | Some 1 => Ok (mkVariant true r1)
          | Some 2 => Ok (mkVariant false r1)
          | _ => Err (DExpected KSequence)
          end
      | _ => Err (DExpected KSequence)
      end
  end.

(** [PairDecoder::skip_second] for [VariantWireDecoder]. *)
Definition variant_skip_second (v : VariantWireDecoder) : result (bool * list Z) DeError :=
  if negb (v_empty v) then
    match skip_any_top (v_rest v) with
    | Ok r => Ok (true, r)
    | Err e => Err (DSkip e)
    end
  else Ok (true, v_rest v).

(** [MaybeWireDecoder { empty, decoder }] over a [WireDecoder]. *)
Record MaybeWireDecoder := mkMaybe { empty : bool; decoder : list Z }.

Definition check_empty (m : MaybeWireDecoder) : result unit DeError :=
  if empty m then Err DEmpty else Ok tt.

(** [MaybeWireDecoder::decode_option]. *)
Definition maybe_decode_option (m : MaybeWireDecoder) : result (option unit * list Z) DeError :=
  if empty m then Ok (None, decoder m) else decode_option (decoder m).

(** [MaybeWireDecoder::decode_unit]: [self.decoder.decode_unit()], which
    is [skip_any], unless empty. *)
Definition maybe_decode_unit (m : MaybeWireDecoder) : result (list Z) DeError :=
  if negb (empty m) then
    match skip_any_top (decoder m) with Ok r => Ok r | Err e => Err (DSkip e) end
  else Ok (decoder m).

(** [MaybeWireDecoder::decode_u8] and its like: [check_empty], then the
    inner decoder. *)
Definition maybe_decode_u8 (m : MaybeWireDecoder) : result (Z * list Z) DeError :=
  match check_empty m with
  | Err e => Err e
  | Ok _ => decode_u8 (decoder m)
  end.

(** [MaybeWireDecoder::decode_bool]: [self.check_empty()?; self.decode_bool()]
    calls this same method again, not the inner decoder's. [fuel] bounds
    the depth of that recursion, which the real code bounds only by the
    size of its stack. *)
Fixpoint maybe_decode_bool (fuel : nat) (m : MaybeWireDecoder) : result bool DeError :=
  match fuel with
  | O => Err DExhausted
  | S f =>
      match check_empty m with
      | Err e => Err e
      | Ok _ => maybe_decode_bool f m
      end
  end.

(** [MaybeWireDecoder::decode_unit_struct]: [if !self.empty { self.decode_unit_struct()?; }],
    again a call of this same method. *)
Fixpoint maybe_decode_unit_struct (fuel : nat) (m : MaybeWireDecoder) : result unit DeError :=
  match fuel with
  | O => Err DExhausted
  | S f =>
      if negb (empty m) then
        match maybe_decode_unit_struct f m with
        | Err e => Err e
        | Ok _ => Ok tt
        end
      else Ok tt
  end.

End WireDe.

(** ** musli-storage/src/en.rs: [StorageEncoder] with the [Variable] encodings *)
Module StorageEn.
Import Int.

(** The writer's output is the list of bytes written, in order. *)

(** [encode_bytes]: [L::encode_usize(len)], then the bytes. *)
Definition encode_bytes (bytes : list Z) : list Z :=
  encode_usize (Z.of_nat (length bytes)) ++ bytes.

(** [encode_bytes_vectored]: the summed length, then each slice in turn. *)
Definition encode_bytes_vectored (vectors : list (list Z)) : list Z :=
  let len := fold_right Nat.add O (map (@length Z) vectors) in
  fold_left (fun out bytes => out ++ bytes) vectors (encode_usize (Z.of_nat len)).

(** [encode_string]: the length in bytes, then the UTF-8 bytes. *)
Definition encode_string (utf8 : list Z) : list Z :=
  encode_usize (Z.of_nat (length utf8)) ++ utf8.

(** [encode_u8] writes the byte; [encode_i8] is [encode_u8(value as u8)]. *)
Definition encode_u8 (value : Z) : list Z := [value].
Definition encode_i8 (value : Z) : list Z := encode_u8 (value mod 2 ^ 8).

(** [encode_isize]: [self.encode_usize(value as usize)]. *)
Definition encode_isize (value : Z) : list Z := encode_usize (value mod 2 ^ 64).

(** [encode_bool], [encode_some] and [encode_none]. *)
Definition encode_bool (value : bool) : list Z := [if value then 1 else 0].
Definition encode_some : list Z := [1].
Definition encode_none : list Z := [0].

(** [encode_sequence(len)], and [encode_unit] as [encode_sequence(0)]
    followed by [finish]; [encode_unit_struct] writes the length [0]. *)
Definition encode_sequence (len : Z) : list Z := encode_usize len.
Definition encode_unit : list Z := encode_sequence 0.
Definition encode_unit_struct : list Z := encode_usize 0.

End StorageEn.

(** ** musli-json/src/reader/integer.rs: signed integers *)
Module JsonSigned.
Import Int Json.

(** [Unsigned::negate]: refused above [(MAX >> 1) + 1], otherwise
    [self.not().wrapping_add(1) as $signed]. *)
Definition negate (t : UTy) (u : Z) : option Z :=
  if Z.shiftr (umax t) 1 + 1 <? u then None
  else Some (to_signed (bits t) ((Z.land (Z.lnot u) (umax t) + 1) mod 2 ^ bits t)).

(** [Unsigned::signed]: refused above [MAX >> 1], otherwise [self as $signed]. *)
Definition signed (t : UTy) (u : Z) : option Z :=
  if Z.shiftr (umax t) 1 <? u then None else Some (to_signed (bits t) u).

(** [SignedParts { is_negative, parts }] and [SignedParts::compute]. *)
Definition SignedParts : Type := bool * Parts.

Definition signed_compute (t : UTy) (sp : SignedParts) : result Z IntError :=
  let '(is_negative, parts) := sp in
  match compute t parts with
  | Err e => Err e
  | Ok value =>
      match (if is_negative then negate t value else signed t value) with
      | Some v => Ok v
      | None => Err IOverflow
      end
  end.

(** [decode_signed]: an optional ['-'], then the unsigned number; its
    errors span from before the sign. *)
Definition decode_signed (t : UTy) : PM SignedParts :=
  start <- get_pos ;;
  b <- peek_byte ;;
  is_negative <- (match b with
                  | Some 45 => skip 1 ;;; ret true
                  | _ => ret false
                  end) ;;
  parts <- decode_unsigned_inner t start ;;
  ret (is_negative, parts).

(** [parse_signed]. *)
Definition parse_signed (t : UTy) : PM Z :=
  start <- get_pos ;;
  sp <- decode_signed t ;;
  match signed_compute t sp with
  | Ok v => ret v
  | Err e => pos_ <- get_pos ;; fail (spanned start pos_ (IntegerError e))
  end.

End JsonSigned.

(** * Proofs *)

(** ** Type tags *)
Module TypesFacts.
Import Types.

Lemma all_kinds_complete (k : TypeKind) : In k all_kinds.
Proof. destruct k; simpl; tauto. Qed.

Lemma roundtrip_table_ok : roundtrip_table = true.
Proof. vm_compute. reflexivity. Qed.

Lemma TypeTag_eqb_eq (a b : TypeTag) : TypeTag_eqb a b = true -> a = b.
Proof.
  destruct a as [ka la], b as [kb lb]; unfold TypeTag_eqb, TypeKind_eqb; simpl.
  rewrite andb_true_iff, !Z.eqb_eq. intros [Hk Hl]; subst lb.
  destruct ka, kb; simpl in Hk; try discriminate; reflexivity.
Qed.

Lemma from_byte_byte_small (k : TypeKind) (l : Z) :
  0 <= l <= LEN_MASK -> from_byte (byte (mkTypeTag k l)) = mkTypeTag k l.
Proof.
  intros Hl.
  pose proof roundtrip_table_ok as H. unfold roundtrip_table in H.
  rewrite forallb_forall in H. specialize (H k (all_kinds_complete k)).
  rewrite forallb_forall in H.
  specialize (H (Z.to_nat l)). rewrite Z2Nat.id in H by lia.
  apply TypeTag_eqb_eq, H. apply in_seq. unfold LEN_MASK in Hl. lia.
Qed.

Lemma new_len_range (k : TypeKind) (l : Z) :
  0 <= l -> 0 <= len (new k l) <= LEN_MASK.
Proof.
  intros Hl. unfold new; simpl. destruct (Z.ltb_spec l LEN_MASK); unfold LEN_MASK in *; lia.
Qed.


(** C10: for every kind and every [u8] length, [TypeTag::new] clamps the
    length to the sentinel [0b11111] once it reaches [31] (it never fails),
    [from_byte] inverts [byte] on the constructed tag, and [len()] is
    [None] exactly when the stored length is the sentinel, so an embedded
    length is always below [31]. *)
Theorem type_tag_new_clamps_and_roundtrips (k : TypeKind) (l : Z) (Hl : 0 <= l < 256) :
  len (new k l) = (if l <? LEN_MASK then l else LEN_MASK)
  /\ (LEN_MASK <= l -> len (new k l) = LEN_MASK)
  /\ from_byte (byte (new k l)) = new k l
  /\ (len_opt (new k l) = None <-> len (new k l) = LEN_MASK)
  /\ (forall x, len_opt (new k l) = Some x -> x < LEN_MASK).
Proof.
  pose proof (new_len_range k l ltac:(lia)) as Hr.
  split; [reflexivity|]. split.
  { intros H. unfold new; simpl. destruct (Z.ltb_spec l LEN_MASK); lia. }
  split.
  { destruct (new k l) as [k' l'] eqn:E. simpl in Hr.
    apply from_byte_byte_small. exact Hr. }
  split.
  { unfold len_opt. destruct (Z.eqb_spec (len (new k l)) LEN_MASK); split; congruence. }
  intros x. unfold len_opt. destruct (Z.eqb_spec (len (new k l)) LEN_MASK); [discriminate|].
  intros H; injection H as <-. unfold new in *; simpl in *.
  destruct (Z.ltb_spec l LEN_MASK); unfold LEN_MASK in *; lia.
Qed.

Lemma type_tag_new_clamps_and_roundtrips_witness :
  0 <= 40 < 256 /\ len (new PairSequence 40) = LEN_MASK.
Proof.
  split; [lia|].
  exact (proj1 (proj2 (type_tag_new_clamps_and_roundtrips PairSequence 40 ltac:(lia)))
           ltac:(unfold LEN_MASK; lia)).
Defined.

End TypesFacts.

(** ** [Limit] *)
Module LimitFacts.
Import Reader.

Section Budget.
Local Open Scope nat_scope.
Context {R E : Type}.
Context (r_skip : nat -> R -> result unit E * R)
        (r_read_bytes : nat -> R -> result (list Z) E * R)
        (r_read : list Z -> R -> result (list Z) E * R)
        (r_read_byte : R -> result Z E * R)
        (r_read_array : nat -> R -> result (list Z) E * R)
        (oob : E).

Lemma checked_over {A} (n : nat) (op : R -> result A E * R) (l : Limit R) :
  (remaining l < n)%nat -> checked oob n op l = (Err oob, l).
Proof.
  intros H. unfold checked, bounds_check.
  destruct (Nat.leb_spec n (remaining l)); [lia|reflexivity].
Qed.

Lemma checked_within {A} (n : nat) (op : R -> result A E * R) (l : Limit R) :
  (n <= remaining l)%nat ->
  checked oob n op l = (fst (op (reader l)), mkLimit (remaining l - n) (snd (op (reader l)))).
Proof.
  intros H. unfold checked, bounds_check.
  destruct (Nat.leb_spec n (remaining l)); [|lia]. simpl.
  destruct (op (reader l)); reflexivity.
Qed.

(** C9: every operation of [Limit] asking for more bytes than the remaining
    budget fails and leaves the limit, hence the wrapped reader, untouched;
    a request within the budget lowers the budget by its size and
    delegates to the wrapped reader. *)
Theorem limit_enforces_budget :
  (forall (l : Limit R) (n : nat), (remaining l < n)%nat ->
     limit_skip r_skip oob n l = (Err oob, l)
     /\ limit_read_bytes r_read_bytes oob n l = (Err oob, l)
     /\ limit_read_array r_read_array oob n l = (Err oob, l)
     /\ (forall buf, length buf = n -> limit_read r_read oob buf l = (Err oob, l))
     /\ (n = 1%nat -> limit_read_byte r_read_byte oob l = (Err oob, l)))
  /\ (forall (l : Limit R) (n : nat), (n <= remaining l)%nat ->
     limit_skip r_skip oob n l
       = (fst (r_skip n (reader l)), mkLimit (remaining l - n) (snd (r_skip n (reader l))))
     /\ limit_read_bytes r_read_bytes oob n l
       = (fst (r_read_bytes n (reader l)),
          mkLimit (remaining l - n) (snd (r_read_bytes n (reader l))))
     /\ limit_read_array r_read_array oob n l
       = (fst (r_read_array n (reader l)),
          mkLimit (remaining l - n) (snd (r_read_array n (reader l))))
     /\ (forall buf, length buf = n ->
          limit_read r_read oob buf l
            = (fst (r_read buf (reader l)),
               mkLimit (remaining l - n) (snd (r_read buf (reader l)))))
     /\ (n = 1%nat ->
          limit_read_byte r_read_byte oob l
            = (fst (r_read_byte (reader l)),
               mkLimit (remaining l - n) (snd (r_read_byte (reader l)))))).
Proof.
  split; intros l n H.
  - unfold limit_skip, limit_read_bytes, limit_read_array, limit_read, limit_read_byte.
    repeat split; try (intros; subst); apply checked_over; assumption.
  - unfold limit_skip, limit_read_bytes, limit_read_array, limit_read, limit_read_byte.
    repeat split; try (intros; subst); apply checked_within; assumption.
Qed.

End Budget.

(** A limit of two bytes over a three-byte slice refuses a three-byte skip
    and leaves the slice as it was. *)
Lemma limit_enforces_budget_witness :
  (remaining (mkLimit 2 [1; 2; 3]) < 3)%nat
  /\ limit_skip slice_skip OutOfBounds 3%nat (mkLimit 2 [1; 2; 3])
     = (Err OutOfBounds, mkLimit 2 [1; 2; 3]).
Proof.
  split; [simpl; lia|].
  exact (proj1 (proj1 (limit_enforces_budget slice_skip slice_read_bytes slice_read
                         slice_read_byte slice_read_array OutOfBounds)
                 (mkLimit 2 [1; 2; 3]) 3%nat ltac:(simpl; lia))).
Defined.

End LimitFacts.

(** ** Variable integer encoding *)
Module IntFacts.
Import Int.

Lemma land_127 (y : Z) : 0 <= y -> Z.land y MASK = y mod 128.
Proof. intros. unfold MASK. change 127 with (Z.ones 7). rewrite Z.land_ones by lia. reflexivity. Qed.

Lemma land_128_zero (y : Z) : 0 <= y -> (Z.land y CONT_BYTE =? 0) = ((y / 128) mod 2 =? 0).
Proof.
  intros Hy. unfold CONT_BYTE.
  assert (Hb : Z.land y 128 = 128 * ((y / 128) mod 2)).
  { change 128 with (2 ^ 7).
    rewrite <- (Z.testbit_spec' y 7) by lia.
    destruct (Z.testbit y 7) eqn:Ht; simpl Z.b2z; [rewrite Z.mul_1_r|rewrite Z.mul_0_r];
      apply Z.bits_inj'; intros n Hn;
      rewrite Z.land_spec, Z.pow2_bits_eqb by lia;
      (destruct (Z.eqb_spec 7 n); [subst; rewrite andb_true_r|rewrite andb_false_r]);
      try rewrite Z.bits_0; try rewrite Z.pow2_bits_eqb by lia; auto;
      first [apply Z.eqb_refl | symmetry; apply Z.eqb_neq; auto]. }
  rewrite Hb.
  pose proof (Z.mod_pos_bound (y / 128) 2 ltac:(lia)).
  destruct (Z.eqb_spec ((y / 128) mod 2) 0); destruct (Z.eqb_spec (128 * ((y / 128) mod 2)) 0); lia.
Qed.

Lemma cont_byte (v : Z) : 0 <= v ->
  Z.lor (Z.land v MASK) CONT_BYTE = v mod 128 + 128.
Proof.
  intros Hv. rewrite land_127 by lia. unfold CONT_BYTE.
  assert (H0 : Z.land (v mod 128) 128 = 0).
  { apply Z.bits_inj'; intros n Hn.
    rewrite Z.land_spec, Z.bits_0. change 128 with (2 ^ 7).
    rewrite Z.pow2_bits_eqb by lia.
    destruct (Z.eqb_spec 7 n); [subst|apply andb_false_r].
    rewrite andb_true_r. apply Z.mod_pow2_bits_high. lia. }
  rewrite <- (Z.lxor_lor _ _ H0), <- (Z.add_nocarry_lxor _ _ H0). reflexivity.
Qed.

Lemma c_decode_aux_encode (w : Z) (fuel : nat) : forall v shift acc rest,
  0 <= v < 2 ^ Z.of_nat fuel -> 0 <= shift -> v * 2 ^ shift < 2 ^ w ->
  c_decode_aux w shift acc (c_encode_aux fuel v ++ rest)
  = Ok ((acc + v * 2 ^ shift) mod 2 ^ w, rest).
Proof.
  induction fuel as [|f IH]; intros v shift acc rest Hv Hs Hw.
  - simpl in Hv. assert (v = 0) by lia. subst. simpl.
    rewrite ?Z.shiftl_0_l, ?Z.mul_0_l, ?Z.add_0_r. reflexivity.
  - simpl c_encode_aux. destruct (Z.ltb_spec v CONT_BYTE) as [Hlt|Hge].
    + unfold CONT_BYTE in Hlt. cbn [app c_decode_aux].
      rewrite land_128_zero by lia. rewrite Z.div_small by lia. simpl.
      rewrite land_127 by lia. rewrite (Z.mod_small v 128) by lia.
      rewrite Z.shiftl_mul_pow2 by lia. reflexivity.
    + unfold CONT_BYTE in Hge. cbn [app c_decode_aux].
      rewrite cont_byte by lia.
      pose proof (Z.mod_pos_bound v 128 ltac:(lia)).
      rewrite land_128_zero by lia.
      replace ((v mod 128 + 128) / 128) with 1.
      2:{ apply Z.div_unique with (v mod 128); lia. }
      simpl.
      rewrite land_127 by lia.
      replace ((v mod 128 + 128) mod 128) with (v mod 128).
      2:{ apply Z.mod_unique with 1; lia. }
      assert (Hpow : 2 ^ (shift + 7) = 2 ^ shift * 128) by (rewrite Z.pow_add_r; lia).
      assert (H2s : 0 < 2 ^ shift) by (apply Z.pow_pos_nonneg; lia).
      assert (Hlt : shift + 7 < w).
      { destruct (Z.ltb_spec (shift + 7) w); [assumption|].
        assert (2 ^ w <= 2 ^ (shift + 7)) by (apply Z.pow_le_mono_r; lia). nia. }
      destruct (Z.leb_spec w (shift + 7)); [lia|].
      rewrite Z.shiftr_div_pow2 by lia. change (2 ^ 7) with 128.
      pose proof (Z.div_mod v 128 ltac:(lia)).
      rewrite IH.
      * rewrite Z.shiftl_mul_pow2 by lia. do 3 f_equal. rewrite Hpow. nia.
      * split; [apply Z.div_pos; lia|].
        apply Z.div_lt_upper_bound; [lia|].
        rewrite Nat2Z.inj_succ, Z.pow_succ_r in Hv by lia.
        assert (2 ^ Z.of_nat f <= 2 ^ Z.of_nat f * 64) by lia.
        lia.
      * lia.
      * rewrite Hpow. nia.
Qed.

Lemma pow_w (w : Z) : 1 <= w -> 2 ^ w = 2 * 2 ^ (w - 1).
Proof. intros. rewrite <- Z.pow_succ_r by lia. f_equal. lia. Qed.

Lemma zig_encode_value (w s : Z) : 1 <= w -> - 2 ^ (w - 1) <= s < 2 ^ (w - 1) ->
  zig_encode w s = if 0 <=? s then 2 * s else - 2 * s - 1.
Proof.
  intros Hw Hs. unfold zig_encode.
  pose proof (pow_w w Hw) as Hp.
  assert (Hpos : 0 < 2 ^ (w - 1)) by (apply Z.pow_pos_nonneg; lia).
  rewrite Z.land_ones by lia. rewrite Z.shiftl_mul_pow2, Z.shiftr_div_pow2 by lia.
  change (2 ^ 1) with 2.
  destruct (Z.leb_spec 0 s).
  - rewrite Z.div_small by lia. rewrite Z.lxor_0_r. rewrite Z.mod_small by lia. lia.
  - replace (s / 2 ^ (w - 1)) with (-1).
    2:{ apply Z.div_unique with (s + 2 ^ (w - 1)); lia. }
    rewrite Z.lxor_m1_r, Z.lnot_eq_pred_opp. rewrite Z.mod_small by lia. lia.
Qed.

Lemma zig_decode_encode (w s : Z) : 1 <= w -> - 2 ^ (w - 1) <= s < 2 ^ (w - 1) ->
  zig_decode w (zig_encode w s) = s.
Proof.
  intros Hw Hs. rewrite zig_encode_value by assumption. unfold zig_decode, to_signed.
  pose proof (pow_w w Hw) as Hp.
  assert (Hpos : 0 < 2 ^ (w - 1)) by (apply Z.pow_pos_nonneg; lia).
  rewrite Z.shiftr_div_pow2 by lia. change (2 ^ 1) with 2.
  rewrite (Z.land_ones _ 1) by lia. change (2 ^ 1) with 2.
  destruct (Z.leb_spec 0 s).
  - replace (2 * s / 2) with s by (apply Z.div_unique with 0; lia).
    replace (2 * s mod 2) with 0 by (apply Z.mod_unique with s; lia).
    rewrite Z.lxor_0_r. rewrite Z.mod_small by lia.
    destruct (Z.ltb_spec s (2 ^ (w - 1))); lia.
  - replace ((- 2 * s - 1) / 2) with (- s - 1) by (apply Z.div_unique with 1; lia).
    replace ((- 2 * s - 1) mod 2) with 1 by (apply Z.mod_unique with (- s - 1); lia).
    change (- 1) with (-1). rewrite Z.lxor_m1_r, Z.lnot_eq_pred_opp.
    replace ((- (- s - 1) - 1) mod 2 ^ w) with (s + 2 ^ w) by (apply Z.mod_unique with (-1); lia).
    destruct (Z.ltb_spec (s + 2 ^ w) (2 ^ (w - 1))); lia.
Qed.

Lemma zig_encode_range (w s : Z) : 1 <= w -> - 2 ^ (w - 1) <= s < 2 ^ (w - 1) ->
  0 <= zig_encode w s < 2 ^ w.
Proof.
  intros Hw Hs. rewrite zig_encode_value by assumption.
  pose proof (pow_w w Hw). destruct (Z.leb_spec 0 s); lia.
Qed.

Lemma c_decode_encode (w v : Z) (rest : list Z) : 0 <= w -> 0 <= v < 2 ^ w ->
  c_decode w (c_encode w v ++ rest) = Ok (v, rest).
Proof.
  intros Hw Hv. unfold c_decode, c_encode.
  rewrite c_decode_aux_encode.
  - rewrite Z.pow_0_r, Z.mul_1_r, Z.add_0_l, Z.mod_small by lia. reflexivity.
  - rewrite Z2Nat.id by lia. assumption.
  - lia.
  - lia.
Qed.

(** C6: under the [Variable] integer encoding, a signed integer is written
    as the continuation encoding of its zig-zag image, with zig-zag mapping
    0, -1 and 1 to 0, 1 and 2, and [decode_signed] reads it back; an
    unsigned integer is written as its continuation encoding, with no
    zig-zag step, and [decode_unsigned] reads it back. For every width
    [w >= 2] and every value in the range of that width. *)
Theorem variable_encoding_zigzag_continuation (w : Z) (Hw : 2 <= w) :
  zig_encode w 0 = 0 /\ zig_encode w (-1) = 1 /\ zig_encode w 1 = 2
  /\ (forall s, encode_signed w s = c_encode w (zig_encode w s))
  /\ (forall s rest, - 2 ^ (w - 1) <= s < 2 ^ (w - 1) ->
        decode_signed w (encode_signed w s ++ rest) = Ok (s, rest))
  /\ (forall u, encode_unsigned w u = c_encode w u)
  /\ (forall u rest, 0 <= u < 2 ^ w ->
        decode_unsigned w (encode_unsigned w u ++ rest) = Ok (u, rest)).
Proof.
  assert (Hpos : 2 <= 2 ^ (w - 1)).
  { replace 2 with (2 ^ 1) at 1 by reflexivity. apply Z.pow_le_mono_r; lia. }
  repeat split.
  - rewrite zig_encode_value by lia. reflexivity.
  - rewrite zig_encode_value by lia. reflexivity.
  - rewrite zig_encode_value by lia. reflexivity.
  - intros s rest Hs. unfold decode_signed, encode_signed.
    rewrite c_decode_encode by (try apply zig_encode_range; lia).
    rewrite zig_decode_encode by lia. reflexivity.
  - intros u rest Hu. apply c_decode_encode; lia.
Qed.

Lemma variable_encoding_zigzag_continuation_witness :
  2 <= 32 /\ decode_signed 32 (encode_signed 32 (-1000) ++ [7]) = Ok (-1000, [7]).
Proof.
  split; [lia|].
  apply (proj1 (proj2 (proj2 (proj2 (proj2 (variable_encoding_zigzag_continuation 32 ltac:(lia))))))).
  vm_compute. split; congruence.
Defined.

End IntFacts.

(** ** The wire format: [skip_any] and pair sequences *)
Module WireFacts.
Import Int Wire IntFacts.

Lemma small_cases (P : Z -> Prop) :
  (forall n : nat, (n < 32)%nat -> P (Z.of_nat n)) -> forall d, 0 <= d < 32 -> P d.
Proof. intros H d Hd. rewrite <- (Z2Nat.id d) by lia. apply H. lia. Qed.

Lemma tag_new_spec (k : Kind) (d : Z) : 0 <= d < 32 ->
  tag_kind (tag_new k d) = Some k
  /\ tag_data (tag_new k d) = (if d <? DATA_MASK then Some d else None).
Proof.
  revert d. apply small_cases. intros n Hn.
  do 32 (destruct n as [|n]; [destruct k; split; reflexivity|]). lia.
Qed.

Lemma encode_len_read (k : Kind) (n : Z) (r : list Z) : 0 <= n < 2 ^ 64 ->
  exists b r1, encode_len k n ++ r = b :: r1
  /\ tag_kind b = Some k /\ tag_len b r1 = Ok (n, r).
Proof.
  intros Hn. unfold encode_len. destruct (Z.ltb_spec n DATA_MASK) as [Hs|Hb].
  - exists (tag_new k n), r. unfold DATA_MASK in Hs.
    destruct (tag_new_spec k n ltac:(lia)) as [Hk Hd].
    repeat split; [assumption|]. unfold tag_len. rewrite Hd.
    unfold DATA_MASK. destruct (Z.ltb_spec n 31); [reflexivity|lia].
  - exists (tag_new k DATA_MASK), (encode_usize n ++ r).
    destruct (tag_new_spec k DATA_MASK ltac:(unfold DATA_MASK; lia)) as [Hk Hd].
    repeat split; [assumption|]. unfold tag_len. rewrite Hd. simpl.
    unfold decode_usize, encode_usize. apply c_decode_encode; lia.
Qed.

Lemma skip_n_flat (f : list Z -> result (list Z) WireError) (xs : list WireValue) :
  (forall x rest, In x xs -> f (encode x ++ rest) = Ok rest) ->
  forall k rest, (length xs < k)%nat ->
  skip_n f k (Z.of_nat (length xs)) (flat_map encode xs ++ rest) = Ok rest.
Proof.
  induction xs as [|x xs IH]; intros Hf k rest Hk; destruct k as [|k]; try (simpl in Hk; lia).
  - reflexivity.
  - cbn [skip_n length flat_map]. rewrite <- app_assoc.
    destruct (Z.leb_spec (Z.of_nat (S (length xs))) 0); [lia|].
    rewrite Hf by (left; reflexivity).
    replace (Z.of_nat (S (length xs)) - 1) with (Z.of_nat (length xs)) by lia.
    apply IH; [intros; apply Hf; right; assumption|simpl in Hk; lia].
Qed.

Lemma encode_nonempty (v : WireValue) : (1 <= length (encode v))%nat.
Proof.
  destruct v; simpl.
  - destruct (b <? DATA_MASK); simpl; lia.
  - destruct (v <? DATA_MASK); simpl; lia.
  - unfold encode_len. destruct (_ <? DATA_MASK); simpl; lia.
  - unfold encode_len. destruct (_ <? DATA_MASK); simpl; lia.
  - unfold encode_len. destruct (_ <? DATA_MASK); simpl; lia.
Qed.

Lemma flat_map_length_ge (xs : list WireValue) :
  (length xs <= length (flat_map encode xs))%nat.
Proof.
  induction xs as [|x xs IH]; simpl; [lia|].
  rewrite length_app. pose proof (encode_nonempty x). lia.
Qed.

Lemma in_flat_map_length (x : WireValue) (xs : list WireValue) :
  In x xs -> (length (encode x) <= length (flat_map encode xs))%nat.
Proof.
  induction xs as [|y xs IH]; simpl; [tauto|].
  rewrite length_app. intros [->|H]; [lia|]. specialize (IH H). lia.
Qed.

Lemma pair_items_encode (kvs : list (WireValue * WireValue)) :
  flat_map (fun kv => encode (fst kv) ++ encode (snd kv)) kvs
  = flat_map encode (pair_items kvs).
Proof.
  induction kvs as [|kv kvs IH]; simpl; [reflexivity|].
  rewrite IH, <- app_assoc. reflexivity.
Qed.

Lemma pair_items_length (kvs : list (WireValue * WireValue)) :
  length (pair_items kvs) = (2 * length kvs)%nat.
Proof. induction kvs as [|kv kvs IH]; simpl; [reflexivity|]. rewrite IH. lia. Qed.

Lemma pair_items_wf (kvs : list (WireValue * WireValue)) :
  forallb (fun kv => wf (fst kv) && wf (snd kv)) kvs = true ->
  forall x, In x (pair_items kvs) -> wf x = true.
Proof.
  induction kvs as [|kv kvs IH]; simpl; [tauto|].
  intros H x Hx. apply andb_true_iff in H as [H1 H2]. apply andb_true_iff in H1 as [Ha Hb].
  destruct Hx as [<-|[<-|Hx]]; auto.
Qed.

Lemma skip_any_encode (fuel : nat) : forall v rest, wf v = true ->
  (length (encode v) < fuel)%nat -> skip_any fuel (encode v ++ rest) = Ok rest.
Proof.
  induction fuel as [|fuel IH]; intros v rest Hwf Hf; [lia|].
  assert (Hseq : forall xs rest, (forall x, In x xs -> wf x = true) ->
            (length (flat_map encode xs) < fuel)%nat ->
            skip_n (skip_any fuel) (S (length (flat_map encode xs ++ rest)))
              (Z.of_nat (length xs)) (flat_map encode xs ++ rest) = Ok rest).
  { intros xs rest' Hw Hl. apply skip_n_flat.
    - intros x r Hx. apply IH; [auto|]. pose proof (in_flat_map_length x xs Hx). lia.
    - rewrite length_app. pose proof (flat_map_length_ge xs). lia. }
  destruct v as [b|n|bs|xs|kvs]; cbn [wf] in Hwf.
  - unfold is_u8 in Hwf. apply andb_true_iff in Hwf as [H1 H2].
    apply Z.leb_le in H1. apply Z.ltb_lt in H2.
    cbn [encode]. destruct (Z.ltb_spec b DATA_MASK) as [Hs|Hb]; unfold DATA_MASK in *.
    + destruct (tag_new_spec KByte b ltac:(lia)) as [Hk Hd]. cbn [app skip_any read_byte].
      rewrite Hk, Hd. unfold DATA_MASK. destruct (Z.ltb_spec b 31); [reflexivity|lia].
    + destruct (tag_new_spec KByte 31 ltac:(lia)) as [Hk Hd]. cbn [app skip_any read_byte].
      rewrite Hk, Hd. simpl. unfold skip.
      destruct (Z.ltb_spec (Z.of_nat (length (b :: rest))) 1); [simpl in *; lia|reflexivity].
  - apply andb_true_iff in Hwf as [H1 H2].
    apply Z.leb_le in H1. apply Z.ltb_lt in H2.
    cbn [encode]. destruct (Z.ltb_spec n DATA_MASK) as [Hs|Hb]; unfold DATA_MASK in *.
    + destruct (tag_new_spec KContinuation n ltac:(lia)) as [Hk Hd]. cbn [app skip_any read_byte].
      rewrite Hk, Hd. unfold DATA_MASK. destruct (Z.ltb_spec n 31); [reflexivity|lia].
    + destruct (tag_new_spec KContinuation 31 ltac:(lia)) as [Hk Hd]. cbn [app skip_any read_byte].
      rewrite Hk, Hd. simpl. rewrite c_decode_encode by lia. reflexivity.
  - apply andb_true_iff in Hwf as [H1 H2]. apply Z.ltb_lt in H2.
    cbn [encode]. rewrite <- app_assoc.
    destruct (encode_len_read KPrefix (Z.of_nat (length bs)) (bs ++ rest) ltac:(lia))
      as (b & r1 & He & Hk & Hl).
    rewrite He. cbn [skip_any read_byte]. rewrite Hk, Hl. unfold skip.
    rewrite length_app, Nat2Z.id.
    destruct (Z.ltb_spec (Z.of_nat (length bs + length rest)) (Z.of_nat (length bs))); [lia|].
    rewrite skipn_app, skipn_all, Nat.sub_diag. reflexivity.
  - apply andb_true_iff in Hwf as [H1 H2]. apply Z.ltb_lt in H2.
    rewrite forallb_forall in H1.
    cbn [encode]. rewrite <- app_assoc.
    destruct (encode_len_read KSequence (Z.of_nat (length xs)) (flat_map encode xs ++ rest) ltac:(lia))
      as (b & r1 & He & Hk & Hl).
    rewrite He. cbn [skip_any read_byte]. rewrite Hk, Hl.
    apply Hseq; [assumption|].
    cbn [encode] in Hf. rewrite length_app in Hf.
    pose proof (encode_len_read KSequence (Z.of_nat (length xs)) [] ltac:(lia)) as (b' & r' & He' & _).
    assert (1 <= length (encode_len KSequence (Z.of_nat (length xs))))%nat.
    { destruct (encode_len KSequence (Z.of_nat (length xs))); simpl in He'; [discriminate|simpl; lia]. }
    lia.
  - apply andb_true_iff in Hwf as [H1 H2]. apply Z.ltb_lt in H2.
    cbn [encode]. rewrite <- app_assoc, pair_items_encode.
    destruct (encode_len_read KSequence (2 * Z.of_nat (length kvs))
                (flat_map encode (pair_items kvs) ++ rest) ltac:(lia))
      as (b & r1 & He & Hk & Hl).
    rewrite He. cbn [skip_any read_byte]. rewrite Hk, Hl.
    replace (2 * Z.of_nat (length kvs)) with (Z.of_nat (length (pair_items kvs)))
      by (rewrite pair_items_length; lia).
    apply Hseq; [apply pair_items_wf; assumption|].
    cbn [encode] in Hf. rewrite length_app, pair_items_encode in Hf.
    pose proof (encode_len_read KSequence (2 * Z.of_nat (length kvs)) [] ltac:(lia)) as (b' & r' & He' & _).
    assert (1 <= length (encode_len KSequence (2 * Z.of_nat (length kvs))))%nat.
    { destruct (encode_len KSequence (2 * Z.of_nat (length kvs))); simpl in He'; [discriminate|simpl; lia]. }
    lia.
Qed.

Lemma c_decode_aux_nonneg (w : Z) (r : list Z) : forall shift acc x r',
  0 <= w -> c_decode_aux w shift acc r = Ok (x, r') -> 0 <= x.
Proof.
  induction r as [|b r IH]; intros shift acc x r' Hw H; simpl in H; [discriminate|].
  destruct (Z.land b CONT_BYTE =? 0).
  - injection H as <- _. apply Z.mod_pos_bound. apply Z.pow_pos_nonneg; lia.
  - destruct (w <=? shift + 7); [discriminate|]. eapply IH; eassumption.
Qed.

Lemma decode_sequence_len_nonneg (r : list Z) (len : Z) (r' : list Z) :
  decode_sequence_len r = Ok (len, r') -> 0 <= len.
Proof.
  unfold decode_sequence_len, tag_len, tag_data. destruct (read_byte r) as [[b r1]|e]; [|discriminate].
  destruct (tag_kind b) as [[]|]; try discriminate.
  destruct (Z.land b DATA_MASK =? DATA_MASK) eqn:E.
  - unfold decode_usize, c_decode. intros H. eapply c_decode_aux_nonneg; [|exact H]. lia.
  - intros H. injection H as <- _. apply Z.land_nonneg. unfold DATA_MASK. lia.
Qed.

Lemma pairs_yielded_remaining (k : nat) : forall m r, 0 <= m -> (Z.to_nat m < k)%nat ->
  pairs_yielded k (mkRemaining m r) = Z.to_nat m.
Proof.
  induction k as [|k IH]; intros m r Hm Hk; [lia|].
  simpl. unfold pairs_next. simpl. destruct (Z.eqb_spec m 0) as [->|Hne]; [reflexivity|].
  rewrite IH by lia. lia.
Qed.

Lemma encode_map_sequence_len (kvs : list (WireValue * WireValue)) (rest : list Z) :
  wf (WMap kvs) = true ->
  decode_sequence_len (encode (WMap kvs) ++ rest)
  = Ok (2 * Z.of_nat (length kvs),
        flat_map (fun kv => encode (fst kv) ++ encode (snd kv)) kvs ++ rest).
Proof.
  intros Hwf. cbn [wf] in Hwf. apply andb_true_iff in Hwf as [_ H2]. apply Z.ltb_lt in H2.
  cbn [encode]. rewrite <- app_assoc.
  destruct (encode_len_read KSequence (2 * Z.of_nat (length kvs))
              (flat_map (fun kv => encode (fst kv) ++ encode (snd kv)) kvs ++ rest) ltac:(lia))
    as (b & r1 & He & Hk & Hl).
  rewrite He. unfold decode_sequence_len. cbn [read_byte]. rewrite Hk. exact Hl.
Qed.

(** C2 (amended): [skip_any] on the encoding of a well-formed value,
    followed by any bytes, consumes exactly that encoding and stops at the
    next value. On a sequence tag it decodes the length [len] and skips
    [len] inner values, not twice as many; a map or struct with [n] pairs
    is a sequence tag recording [2 * n], so its [2 * n] keys and values are
    skipped. *)
Theorem wire_skip_any_consumes_encoding :
  (forall v rest, wf v = true -> skip_any_top (encode v ++ rest) = Ok rest)
  /\ (forall fuel b r, tag_kind b = Some KSequence ->
        skip_any (S fuel) (b :: r)
        = match tag_len b r with
          | Err e => Err (Read e)
          | Ok (len, r2) => skip_n (skip_any fuel) (S (length r2)) len r2
          end)
  /\ (forall kvs rest, wf (WMap kvs) = true ->
        decode_sequence_len (encode (WMap kvs) ++ rest)
        = Ok (2 * Z.of_nat (length kvs),
              flat_map (fun kv => encode (fst kv) ++ encode (snd kv)) kvs ++ rest)).
Proof.
  split; [|split].
  - intros v rest Hwf. unfold skip_any_top. apply skip_any_encode; [assumption|].
    rewrite length_app. lia.
  - intros fuel b r Hk. cbn [skip_any read_byte]. rewrite Hk. reflexivity.
  - exact encode_map_sequence_len.
Qed.

Lemma wire_skip_any_consumes_encoding_witness :
  wf (WMap [(WByte 1, WUnsigned 300)]) = true
  /\ skip_any_top (encode (WMap [(WByte 1, WUnsigned 300)]) ++ [32]) = Ok [32].
Proof.
  split; [vm_compute; reflexivity|].
  apply (proj1 wire_skip_any_consumes_encoding). vm_compute. reflexivity.
Defined.

(** C2: a sequence tag recording the length 2 followed by four values:
    [skip_any] skips two of them, not four. *)
Lemma wire_skip_pair_sequence_counterexample :
  decode_sequence_len [tag_new KSequence 2; tag_new KByte 0; tag_new KByte 0;
                       tag_new KByte 0; tag_new KByte 0]
  = Ok (2, [tag_new KByte 0; tag_new KByte 0; tag_new KByte 0; tag_new KByte 0])
  /\ skip_any_top [tag_new KSequence 2; tag_new KByte 0; tag_new KByte 0;
                   tag_new KByte 0; tag_new KByte 0]
     = Ok [tag_new KByte 0; tag_new KByte 0].
Proof. split; vm_compute; reflexivity. Qed.

(** C3 (amended): decoding a map or struct reads the length [len] recorded
    after its sequence tag and yields [len / 2] key-value pairs, so the
    recorded length of [n] pairs is [2 * n]: a recorded [2 * n] yields
    exactly [n] pairs. *)
Theorem pair_sequence_yields_half_the_length :
  (forall r len r', decode_sequence_len r = Ok (len, r') ->
     decode_struct r = Ok (mkRemaining (len / 2) r')
     /\ pairs_yielded (S (Z.to_nat len)) (mkRemaining (len / 2) r') = Z.to_nat (len / 2))
  /\ (forall r n r', 0 <= n -> decode_sequence_len r = Ok (2 * n, r') ->
        decode_struct r = Ok (mkRemaining n r')
        /\ pairs_yielded (S (Z.to_nat (2 * n))) (mkRemaining n r') = Z.to_nat n).
Proof.
  split.
  - intros r len r' H. pose proof (decode_sequence_len_nonneg r len r' H) as Hl.
    unfold decode_struct, shared_decode_pair_sequence. rewrite H. split; [reflexivity|].
    apply pairs_yielded_remaining.
    + apply Z.div_pos; lia.
    + assert (len / 2 <= len) by (apply Z.div_le_upper_bound; lia). lia.
  - intros r n r' Hn H.
    unfold decode_struct, shared_decode_pair_sequence. rewrite H.
    rewrite Z.mul_comm, Z.div_mul by lia. split; [reflexivity|].
    apply pairs_yielded_remaining; lia.
Qed.

Lemma pair_sequence_yields_half_the_length_witness :
  decode_sequence_len [tag_new KSequence 4] = Ok (4, [])
  /\ pairs_yielded 5 (mkRemaining 2 []) = 2%nat.
Proof.
  split; [vm_compute; reflexivity|].
  apply (proj2 (proj1 pair_sequence_yields_half_the_length [tag_new KSequence 4] 4 []
                  ltac:(vm_compute; reflexivity))).
Defined.

(** C3: a pair sequence recording the length 2 yields one pair, not two. *)
Lemma pair_sequence_len_counterexample :
  decode_sequence_len [tag_new KSequence 2] = Ok (2, [])
  /\ decode_struct [tag_new KSequence 2] = Ok (mkRemaining 1 [])
  /\ pairs_yielded 3 (mkRemaining 1 []) = 1%nat.
Proof. repeat split; vm_compute; reflexivity. Qed.

End WireFacts.

(** ** The JSON integer parser and decoder *)
Module JsonFacts.
Import Json.

Lemma checked_pow10_spec (t : UTy) (x e : Z) : 0 <= e ->
  checked_pow10 t x e
  = if (x * 10 ^ e <=? umax t) && ((e <? pows_len t) || (10 ^ e <=? umax t))
    then Some (x * 10 ^ e) else None.
Proof.
  intros He. unfold checked_pow10, checked_pow, checked_mul.
  destruct (e <? pows_len t), (10 ^ e <=? umax t), (x * 10 ^ e <=? umax t); reflexivity.
Qed.

Lemma pows_fit (t : UTy) : In t [U8; U16; U32; U64; U128; Usize] ->
  forall k, 0 <= k < pows_len t -> 10 ^ k <= umax t.
Proof.
  intros Ht k Hk.
  assert (10 ^ (pows_len t - 1) <= umax t).
  { destruct Ht as [<-|[<-|[<-|[<-|[<-|[<-|[]]]]]]]; vm_compute; congruence. }
  assert (10 ^ k <= 10 ^ (pows_len t - 1)) by (apply Z.pow_le_mono_r; lia).
  lia.
Qed.

Lemma div_loop_spec (n : nat) : forall b, 0 <= b ->
  div_loop n b = if b mod 10 ^ Z.of_nat n =? 0 then Ok (b / 10 ^ Z.of_nat n) else Err IDecimal.
Proof.
  induction n as [|n IH]; intros b Hb.
  - simpl. rewrite Z.mod_1_r, Z.div_1_r. reflexivity.
  - cbn [div_loop]. unfold div_mod_ten.
    assert (Hp : 0 < 10 ^ Z.of_nat n) by (apply Z.pow_pos_nonneg; lia).
    rewrite Nat2Z.inj_succ, Z.pow_succ_r by lia.
    rewrite Z.rem_mul_r, <- Z.div_div by lia.
    pose proof (Z.mod_pos_bound b 10 ltac:(lia)).
    pose proof (Z.mod_pos_bound (b / 10) (10 ^ Z.of_nat n) Hp).
    destruct (Z.eqb_spec (b mod 10) 0) as [E|E].
    + rewrite IH by (apply Z.div_pos; lia). rewrite E, Z.add_0_l.
      destruct (Z.eqb_spec ((b / 10) mod 10 ^ Z.of_nat n) 0);
        destruct (Z.eqb_spec (10 * ((b / 10) mod 10 ^ Z.of_nat n)) 0); try reflexivity; lia.
    + destruct (Z.eqb_spec (b mod 10 + 10 * ((b / 10) mod 10 ^ Z.of_nat n)) 0); [lia|reflexivity].
Qed.

Ltac split_cmp :=
  repeat (simpl in *; match goal with
  | |- context [?a <=? ?b] => destruct (Z.leb_spec a b)
  | |- context [?a <? ?b] => destruct (Z.ltb_spec a b)
  | |- context [?a =? ?b] => destruct (Z.eqb_spec a b)
  end).

(** C4 (amended): [Parts::compute] for each unsigned target type, with base
    [b], mantissa value [m] over [exp] fraction digits and exponent [e'].
    A zero exponent gives [b] when [m = 0], whatever the number of fraction
    digits, and decimal otherwise. A positive exponent fails with decimal
    when [e' < exp]; otherwise it gives [b * 10^e' + m * 10^(e' - exp)] when
    that value and the power [10^(e' - exp)] both fit the type, and fails
    with overflow otherwise. A negative exponent fails with decimal unless
    [m = 0], then divides [b] by [10^|e'|], failing with decimal on a
    remainder. *)
Theorem compute_composes_parts (t : UTy) (Ht : In t [U8; U16; U32; U64; U128; Usize])
    (b mv mexp ev : Z) (neg : bool) (Hb : 0 <= b) (Hm : 0 <= mv) (He : 0 <= ev) :
  compute t (mkParts b mv mexp neg ev)
  = if ev =? 0 then (if mv =? 0 then Ok b else Err IDecimal)
    else if negb neg then
      (if ev <? mexp then Err IDecimal
       else if (b * 10 ^ ev + mv * 10 ^ (ev - mexp) <=? umax t)
               && (10 ^ (ev - mexp) <=? umax t)
       then Ok (b * 10 ^ ev + mv * 10 ^ (ev - mexp))
       else Err IOverflow)
    else if mv =? 0 then
      (if b mod 10 ^ ev =? 0 then Ok (b / 10 ^ ev) else Err IDecimal)
    else Err IDecimal.
Proof.
  unfold compute.
  destruct (Z.eqb_spec ev 0) as [E0|E0]; [destruct (Z.eqb_spec mv 0); reflexivity|].
  destruct neg; simpl negb; cbv iota beta.
  - destruct (Z.eqb_spec mv 0); simpl; [|reflexivity].
    rewrite div_loop_spec, Z2Nat.id by lia. reflexivity.
  - destruct (Z.ltb_spec ev mexp) as [Hlt|Hge]; [reflexivity|].
    set (k := ev - mexp).
    assert (Hk : 0 <= k) by lia.
    assert (Hpk : 0 < 10 ^ k) by (apply Z.pow_pos_nonneg; lia).
    assert (Hpe : 0 < 10 ^ ev) by (apply Z.pow_pos_nonneg; lia).
    pose proof (pows_fit t Ht k) as Hfit.
    assert (Hmax : 0 <= umax t).
    { destruct Ht as [<-|[<-|[<-|[<-|[<-|[<-|[]]]]]]]; vm_compute; congruence. }
    rewrite (checked_pow10_spec t mv k Hk).
    destruct (Z.eqb_spec b 0) as [->|Hb0].
    + unfold checked_add. split_cmp; try reflexivity; try nia.
    + rewrite (checked_pow10_spec t b ev ltac:(lia)).
      unfold checked_add. split_cmp; try reflexivity; try nia.
Qed.

Lemma compute_composes_parts_witness :
  In U8 [U8; U16; U32; U64; U128; Usize] /\ compute U8 (mkParts 2 5 1 false 2) = Ok 250.
Proof.
  split; [left; reflexivity|].
  rewrite (compute_composes_parts U8 ltac:(left; reflexivity) 2 5 1 2 false
             ltac:(lia) ltac:(lia) ltac:(lia)).
  vm_compute. reflexivity.
Defined.

(** C4: [1.0] has the parts [e' = 0 < exp = 1], yet it is an integer, not a
    decimal error; [0e3] into [u8] denotes [0], which fits, yet it fails with
    overflow because [10^3] does not fit. *)
Lemma compute_parts_counterexample :
  decode_unsigned U8 (mkParser [49; 46; 48] 0) = (Ok (mkParts 1 0 1 false 0), mkParser [49; 46; 48] 3)
  /\ compute U8 (mkParts 1 0 1 false 0) = Ok 1
  /\ decode_unsigned U8 (mkParser [48; 101; 51] 0) = (Ok (mkParts 0 0 0 false 3), mkParser [48; 101; 51] 3)
  /\ compute U8 (mkParts 0 0 0 false 3) = Err IOverflow.
Proof. repeat split; vm_compute; reflexivity. Qed.

Lemma bind_ok {A B : Type} (m : PM A) (k : A -> PM B) (p p' : Parser) (a : A) :
  m p = (Ok a, p') -> bind m k p = k a p'.
Proof. intros E. unfold bind. rewrite E. reflexivity. Qed.

Lemma bind_err {A B : Type} (m : PM A) (k : A -> PM B) (p p' : Parser) (e : ParseError) :
  m p = (Err e, p') -> bind m k p = (Err e, p').
Proof. intros E. unfold bind. rewrite E. reflexivity. Qed.

Lemma digits_from_ge (ds : list Z) : forall a, forallb is_digit ds = true ->
  a <= fold_left (fun acc b => acc * 10 + (b - 48)) ds a
  \/ (a < 0).
Proof.
  induction ds as [|x ds IH]; intros a Hd; simpl in *; [left; lia|].
  apply andb_true_iff in Hd as [Hx Hd]. unfold is_digit in Hx.
  apply andb_true_iff in Hx as [Hx1 Hx2]. apply Z.leb_le in Hx1, Hx2.
  destruct (Z.ltb_spec a 0); [right; lia|left].
  destruct (IH (a * 10 + (x - 48)) Hd); lia.
Qed.

(** The loop of [digit] calls over a run of digits [ds] followed by a
    digit [d]: when the value of the run fits and ten times it does not,
    the multiplication before [d] overflows, with the parser left at [d]. *)
Lemma digit_loop_overflow (t : UTy) (start : nat) (d : Z) (rest : list Z) (ds : list Z) :
  forall pre acc k,
  forallb is_digit ds = true -> is_digit d = true -> 0 <= acc ->
  fold_left (fun a b => a * 10 + (b - 48)) ds acc <= umax t ->
  umax t < 10 * fold_left (fun a b => a * 10 + (b - 48)) ds acc ->
  (length ds < k)%nat ->
  while_peek k is_digit (fun base => digit t base start) acc
    (mkParser (pre ++ ds ++ d :: rest) (length pre))
  = (Err (spanned start (length pre + length ds) (IntegerError IOverflow)),
     mkParser (pre ++ ds ++ d :: rest) (length pre + length ds)).
Proof.
  induction ds as [|x ds IH]; intros pre acc k Hds Hd Hacc Hfit Hover Hk;
    (destruct k as [|k]; [simpl in Hk; lia|]).
  - cbn [fold_left] in Hfit, Hover. cbn [while_peek].
    unfold bind at 1, peek_byte; simpl.
    rewrite nth_error_app2, Nat.sub_diag by lia. simpl. rewrite Hd.
    unfold digit, checked_mul10, checked_mul.
    destruct (Z.leb_spec (acc * 10) (umax t)); [lia|].
    unfold bind, get_pos, fail; simpl. rewrite Nat.add_0_r. reflexivity.
  - simpl in Hds. apply andb_true_iff in Hds as [Hx Hds].
    pose proof Hx as Hx'. unfold is_digit in Hx'.
    apply andb_true_iff in Hx' as [Hx1 Hx2]. apply Z.leb_le in Hx1, Hx2.
    cbn [fold_left] in Hfit, Hover.
    destruct (digits_from_ge ds (acc * 10 + (x - 48)) Hds) as [Hge|]; [|lia].
    cbn [while_peek]. unfold bind at 1, peek_byte; simpl.
    rewrite nth_error_app2, Nat.sub_diag by lia. simpl. rewrite Hx.
    unfold bind at 1. unfold digit, checked_mul10, checked_mul.
    destruct (Z.leb_spec (acc * 10) (umax t)); [|lia].
    unfold bind, read_byte, ret; simpl.
    rewrite nth_error_app2, Nat.sub_diag by lia. simpl.
    assert (Hb : 0 <= umax t) by lia. unfold umax in *.
    rewrite Z.mod_small by lia. fold (umax t) in *.
    pose proof (IH (pre ++ [x]) (acc * 10 + (x - 48)) k Hds Hd ltac:(lia) Hfit Hover
                  ltac:(simpl in Hk; lia)) as E.
    rewrite <- app_assoc, length_app in E. simpl in E.
    replace (length pre + S (length ds))%nat with (length pre + 1 + length ds)%nat by lia.
    replace (S (length pre)) with (length pre + 1)%nat by lia.
    exact E.
Qed.

(** C8 (amended): for every unsigned type, a number whose integer digits
    start with a nonzero digit [d0], go on with the digits [ds] and then a
    digit [d], where the value of [d0 :: ds] fits the type but ten times it
    does not, fails with the overflow kind when [digit] multiplies by ten
    before [d]; the error spans from the start of the number to [d], and the
    parser stays at [d], inside the number token, not past it. *)
Theorem parse_unsigned_overflow_position (t : UTy) (pre ds rest : list Z) (d0 d : Z) :
  is_digit_nonzero d0 = true -> forallb is_digit ds = true -> is_digit d = true ->
  fold_left (fun acc b => acc * 10 + (b - 48)) ds (d0 - 48) <= umax t ->
  umax t < 10 * fold_left (fun acc b => acc * 10 + (b - 48)) ds (d0 - 48) ->
  parse_unsigned t (mkParser (pre ++ d0 :: ds ++ d :: rest) (length pre))
  = (Err (spanned (length pre) (length pre + S (length ds)) (IntegerError IOverflow)),
     mkParser (pre ++ d0 :: ds ++ d :: rest) (length pre + S (length ds))).
Proof.
  intros H0 Hds Hd Hfit Hover.
  pose proof H0 as H0'. unfold is_digit_nonzero in H0'.
  apply andb_true_iff in H0' as [H01 H02]. apply Z.leb_le in H01, H02.
  set (inp := pre ++ d0 :: ds ++ d :: rest).
  assert (Hr : read_byte (mkParser inp (length pre)) = (Ok d0, mkParser inp (S (length pre)))).
  { unfold read_byte, inp; simpl. rewrite nth_error_app2, Nat.sub_diag by lia. reflexivity. }
  assert (Hloop : while_peek_top is_digit (fun base => digit t base (length pre)) (d0 - 48)
                    (mkParser inp (S (length pre)))
                  = (Err (spanned (length pre) (length pre + S (length ds)) (IntegerError IOverflow)),
                     mkParser inp (length pre + S (length ds)))).
  { unfold while_peek_top.
    pose proof (digit_loop_overflow t (length pre) d rest ds (pre ++ [d0]) (d0 - 48)
                  (S (remaining_len (mkParser inp (S (length pre)))))
                  Hds Hd ltac:(lia) Hfit Hover) as E.
    rewrite <- app_assoc, length_app in E. simpl in E.
    replace (length pre + 1)%nat with (S (length pre)) in E by lia.
    replace (length pre + S (length ds))%nat with (S (length pre) + length ds)%nat by lia.
    apply E. unfold remaining_len, inp; simpl. rewrite length_app. simpl. rewrite length_app.
    simpl. lia. }
  unfold parse_unsigned. erewrite bind_ok by reflexivity.
  apply bind_err. unfold decode_unsigned.
  erewrite bind_ok by reflexivity. unfold decode_unsigned_inner.
  rewrite (bind_ok _ _ _ _ _ Hr).
  apply bind_err. destruct (Z.eqb_spec d0 48); [lia|]. rewrite H0. exact Hloop.
Qed.

Lemma parse_unsigned_overflow_position_witness :
  parse_unsigned U32 (mkParser ([91] ++ 57 :: repeat 57 8 ++ 57 :: repeat 57 25) (length [91]))
  = (Err (spanned (length [91]) (length [91] + S (length (repeat 57 8))) (IntegerError IOverflow)),
     mkParser ([91] ++ 57 :: repeat 57 8 ++ 57 :: repeat 57 25) (length [91] + S (length (repeat 57 8)))).
Proof.
  apply (parse_unsigned_overflow_position U32 [91] (repeat 57 8) (repeat 57 25) 57 57);
    vm_compute; first [reflexivity | intro H; discriminate].
Defined.

(** C8: after the overflow on 35 nines the position is 9, not past the
    35-byte token. *)
Lemma parse_nines_counterexample :
  fst (parse_unsigned U32 (mkParser (repeat 57 35) 0)) = Err (spanned 0 9 (IntegerError IOverflow))
  /\ pos (snd (parse_unsigned U32 (mkParser (repeat 57 35) 0))) = 9%nat
  /\ pos (snd (parse_unsigned U32 (mkParser (repeat 57 35) 0))) <> length (repeat 57 35).
Proof. vm_compute. split; [reflexivity|split; [reflexivity|discriminate]]. Qed.

Import JsonDe.

Lemma digit_cases (P : Z -> Prop) :
  (forall n : nat, (n < 10)%nat -> P (Z.of_nat n)) -> forall d, 0 <= d <= 9 -> P d.
Proof. intros H d Hd. rewrite <- (Z2Nat.id d) by lia. apply H. lia. Qed.

(** C7: the key decoder of an unsigned integer key reads the JSON string and
    runs [parse_unsigned], the byte-level integer parser, on the string's
    bytes; so a key made of one decimal digit, such as the key 7, decodes to
    that digit in each unsigned target type, the parser ending after the
    closing quote. *)
Theorem key_decoder_parses_string_bytes :
  (forall t p, fst (peek p) = Ok TString ->
     key_decode_unsigned t p
     = match (skip 1 ;;; parse_string) (snd (peek p)) with
       | (Ok (Borrowed bs), p') | (Ok (Scratch bs), p') =>
           (fst (parse_unsigned t (mkParser bs 0)), p')
       | (Err e, p') => (Err e, p')
       end)
  /\ (forall t d rest, In t [U8; U16; U32; U64; U128; Usize] -> 0 <= d <= 9 ->
        key_decode_unsigned t (mkParser ([34; 48 + d; 34] ++ rest) 0)
        = (Ok d, mkParser ([34; 48 + d; 34] ++ rest) 3)).
Proof.
  split.
  - intros t p H. unfold key_decode_unsigned, decode_escaped_bytes, bind.
    destruct (peek p) as [[tok|e] p1]; simpl in H; [|discriminate].
    injection H as ->. simpl.
    destruct (skip 1 p1) as [[[]|e] p2]; [|reflexivity].
    destruct (parse_string p2) as [[[bs|bs]|e] p3]; reflexivity.
  - intros t d rest Ht. revert d. apply digit_cases. intros n Hn.
    destruct Ht as [<-|[<-|[<-|[<-|[<-|[<-|[]]]]]]];
      do 10 (destruct n as [|n]; [vm_compute; reflexivity|]); lia.
Qed.

Lemma key_decoder_parses_string_bytes_witness :
  In U64 [U8; U16; U32; U64; U128; Usize] /\ 0 <= 7 <= 9
  /\ key_decode_unsigned U64 (mkParser ([34; 48 + 7; 34] ++ [58; 32; 49]) 0)
     = (Ok 7, mkParser ([34; 48 + 7; 34] ++ [58; 32; 49]) 3).
Proof.
  split; [right; right; right; left; reflexivity|split; [lia|]].
  apply (proj2 key_decoder_parses_string_bytes); [right; right; right; left; reflexivity|lia].
Defined.

(** C5: the JSON [skip_any] reaches [todo!()] once the items of an array or
    an object have been skipped: on [[]], [{}] and [[1,true]] it panics.
    On [10] it returns after the [1]: [skip_number] continues over nonzero
    digits only. *)
Theorem json_skip_any_panics_after_containers :
  skip_any_top (mkParser [91; 93] 0) = Panicked (mkParser [91; 93] 2)
  /\ skip_any_top (mkParser [123; 125] 0) = Panicked (mkParser [123; 125] 2)
  /\ skip_any_top (mkParser [91; 49; 44; 116; 114; 117; 101; 93] 0)
     = Panicked (mkParser [91; 49; 44; 116; 114; 117; 101; 93] 8)
  /\ skip_any_top (mkParser [49; 48] 0) = Returned (Ok tt) (mkParser [49; 48] 1).
Proof. repeat split; vm_compute; reflexivity. Qed.

End JsonFacts.

(** ** Readers: the slice reader, [SliceReader], [WithPosition] and [Limit] *)
Module ReaderExtFacts.
Import Reader ReaderExt.

Lemma firstn_add {A : Type} (n m : nat) (s : list A) :
  firstn (n + m) s = firstn n s ++ firstn m (skipn n s).
Proof.
  revert s. induction n as [|n IH]; intros [|x s]; simpl; try reflexivity.
  - destruct m; reflexivity.
  - f_equal. apply IH.
Qed.

(** Reads of the slice reader compose: reading [n] bytes and then [m]
    bytes succeeds exactly when reading [n + m] bytes does, with the same
    bytes and the same rest; a read past the end fails and leaves the slice
    as it was; a successful read splits the slice. *)
Theorem slice_reads_compose (n m : nat) (s : list Z) :
  ((length s < n)%nat ->
     slice_read_bytes n s = (Err BufferUnderflow, s) /\ slice_skip n s = (Err BufferUnderflow, s))
  /\ (forall a s1, slice_read_bytes n s = (Ok a, s1) -> a ++ s1 = s /\ length a = n)
  /\ (forall a s1 b s2, slice_read_bytes n s = (Ok a, s1) ->
        (slice_read_bytes m s1 = (Ok b, s2) <-> slice_read_bytes (n + m) s = (Ok (a ++ b), s2))).
Proof.
  unfold slice_read_bytes, slice_skip. split; [|split].
  - intros H. destruct (Nat.ltb_spec (length s) n); [split; reflexivity|lia].
  - intros a s1. destruct (Nat.ltb_spec (length s) n); [discriminate|].
    intros E. injection E as <- <-. split; [apply firstn_skipn|]. rewrite length_firstn. lia.
  - intros a s1 b s2. destruct (Nat.ltb_spec (length s) n); [discriminate|].
    intros E. injection E as <- <-. rewrite length_skipn.
    destruct (Nat.ltb_spec (length s - n) m); destruct (Nat.ltb_spec (length s) (n + m));
      try lia; split; intros E; try discriminate.
    + injection E as <- <-. rewrite firstn_add, skipn_skipn, Nat.add_comm. reflexivity.
    + injection E as Ha <-. rewrite firstn_add in Ha. apply app_inv_head in Ha. subst b.
      rewrite skipn_skipn, Nat.add_comm. reflexivity.
Qed.

Lemma slice_reads_compose_witness :
  (length [1; 2] < 3)%nat
  /\ slice_read_bytes 3 [1; 2] = (Err BufferUnderflow, [1; 2])
  /\ slice_skip 3 [1; 2] = (Err BufferUnderflow, [1; 2]).
Proof.
  split; [simpl; lia|].
  apply (proj1 (slice_reads_compose 3 0 [1; 2])). simpl; lia.
Defined.

(** Every operation of the slice reader is [read_bytes] of its size:
    [skip n] moves as [read_bytes n] does, [read buf] and [read_array::<n>]
    read [length buf] and [n] bytes, and the default [read_byte] (through
    [read_array::<1>]) returns the first byte, or fails on an empty slice
    and leaves it empty. *)
Theorem slice_ops_are_read_bytes (n : nat) (buf s : list Z) :
  slice_skip n s
    = (match fst (slice_read_bytes n s) with Ok _ => Ok tt | Err e => Err e end,
       snd (slice_read_bytes n s))
  /\ slice_read buf s = slice_read_bytes (length buf) s
  /\ slice_read_array n s = slice_read_bytes n s
  /\ slice_read_byte s
     = match s with
       | [] => (Err BufferUnderflow, [])
       | b :: s' => (Ok b, s')
       end.
Proof.
  unfold slice_skip, slice_read_bytes, slice_read, slice_read_byte, slice_read_array.
  repeat split.
  - destruct (length s <? n)%nat; reflexivity.
  - destruct s as [|b s]; reflexivity.
Qed.

(** [from_raw_parts] reads [n] bytes. *)
Lemma from_raw_parts_length (mem : Z -> Z) (n : nat) : forall start,
  length (from_raw_parts mem start n) = n.
Proof. induction n as [|n IH]; intros start; simpl; [reflexivity|]. now rewrite IH. Qed.

Lemma from_raw_parts_split (mem : Z -> Z) (n : nat) : forall start m, (n <= m)%nat ->
  firstn n (from_raw_parts mem start m) = from_raw_parts mem start n
  /\ skipn n (from_raw_parts mem start m) = from_raw_parts mem (start + Z.of_nat n) (m - n).
Proof.
  induction n as [|n IH]; intros start m Hm.
  - simpl. rewrite Z.add_0_r, Nat.sub_0_r. split; reflexivity.
  - destruct m as [|m]; [lia|]. simpl.
    destruct (IH (start + 1) m ltac:(lia)) as [H1 H2]. rewrite H1, H2.
    split; [reflexivity|]. f_equal. lia.
Qed.

Lemma from_raw_parts_layout (mem : Z -> Z) (data : list Z) : forall base,
  (forall i, (i < length data)%nat -> mem (base + Z.of_nat i) = nth i data 0) ->
  from_raw_parts mem base (length data) = data.
Proof.
  induction data as [|x data IH]; intros base H; simpl; [reflexivity|].
  f_equal.
  - specialize (H O ltac:(simpl; lia)). simpl in H. now rewrite Z.add_0_r in H.
  - apply IH. intros i Hi. specialize (H (S i) ltac:(simpl; lia)). simpl in H.
    rewrite <- H. f_equal. lia.
Qed.

(** [bounds_check_add] on a valid range and a [usize] length: the wrapping
    addition and its two comparisons amount to "the length fits". *)
Lemma bounds_check_add_spec (range : SliceReader) (len : Z) :
  0 <= range_start range <= range_end range -> range_end range < USIZE_MOD ->
  0 <= len < USIZE_MOD ->
  bounds_check_add range len
  = if range_end range - range_start range <? len then Err BufferUnderflow
    else Ok (range_start range + len).
Proof.
  intros Hr He Hl. unfold bounds_check_add.
  destruct range as [st en]; simpl in *.
  destruct (Z.ltb_spec (st + len) USIZE_MOD).
  - rewrite Z.mod_small by lia.
    destruct (Z.ltb_spec en (st + len)); destruct (Z.ltb_spec (st + len) st);
      destruct (Z.ltb_spec (en - st) len); simpl; try reflexivity; lia.
  - replace ((st + len) mod USIZE_MOD) with (st + len - USIZE_MOD).
    2:{ apply Z.mod_unique with 1; lia. }
    destruct (Z.ltb_spec (st + len - USIZE_MOD) st); [|lia].
    rewrite orb_true_r. destruct (Z.ltb_spec (en - st) len); [reflexivity|lia].
Qed.

Lemma unread_after (mem : Z -> Z) (st en : Z) (n : nat) :
  0 <= st -> st + Z.of_nat n <= en ->
  firstn n (unread mem (mkSliceReader st en)) = from_raw_parts mem st n
  /\ skipn n (unread mem (mkSliceReader st en)) = unread mem (mkSliceReader (st + Z.of_nat n) en).
Proof.
  intros Hs Hn. unfold unread; simpl.
  destruct (from_raw_parts_split mem n st (Z.to_nat (en - st)) ltac:(lia)) as [H1 H2].
  rewrite H1, H2. split; [reflexivity|]. f_equal. lia.
Qed.

Lemma unread_length (mem : Z -> Z) (range : SliceReader) :
  length (unread mem range) = Z.to_nat (range_end range - range_start range).
Proof. apply from_raw_parts_length. Qed.

(** The pointer-range [SliceReader] behaves as the [&[u8]] reader on the
    bytes it has left: [new] over a slice laid out in memory hands out that
    slice, and on every valid range [skip], [read_bytes] and [read] of any
    [usize] length return what the slice reader returns, and leave the
    bytes the slice reader leaves, in a range that stays valid. In
    particular a length large enough to wrap the address around is
    refused. *)
Theorem slice_reader_refines_slice (mem : Z -> Z) :
  (forall base data,
     0 <= base -> base + Z.of_nat (length data) < USIZE_MOD ->
     (forall i, (i < length data)%nat -> mem (base + Z.of_nat i) = nth i data 0) ->
     unread mem (new base (length data)) = data
     /\ 0 <= range_start (new base (length data)) <= range_end (new base (length data))
     /\ range_end (new base (length data)) < USIZE_MOD)
  /\ (forall range n, 0 <= range_start range <= range_end range ->
       range_end range < USIZE_MOD -> Z.of_nat n < USIZE_MOD ->
       fst (read_bytes mem n range) = fst (slice_read_bytes n (unread mem range))
       /\ unread mem (snd (read_bytes mem n range)) = snd (slice_read_bytes n (unread mem range))
       /\ fst (skip n range) = fst (slice_skip n (unread mem range))
       /\ unread mem (snd (skip n range)) = snd (slice_skip n (unread mem range))
       /\ range_end (snd (read_bytes mem n range)) = range_end range
       /\ 0 <= range_start (snd (read_bytes mem n range)) <= range_end range
       /\ snd (skip n range) = snd (read_bytes mem n range))
  /\ (forall range buf, 0 <= range_start range <= range_end range ->
       range_end range < USIZE_MOD -> Z.of_nat (length buf) < USIZE_MOD ->
       read mem buf range = read_bytes mem (length buf) range
       /\ slice_read buf (unread mem range) = slice_read_bytes (length buf) (unread mem range)).
Proof.
  split; [|split].
  - intros base data Hb Hl Hmem. unfold new, unread; simpl.
    replace (Z.to_nat (base + Z.of_nat (length data) - base)) with (length data) by lia.
    split; [now apply from_raw_parts_layout|]. lia.
  - intros [st en] n Hr He Hn; simpl in *.
    unfold read_bytes, skip, slice_read_bytes, slice_skip.
    rewrite bounds_check_add_spec by (simpl; lia). simpl.
    rewrite unread_length. simpl.
    destruct (Z.ltb_spec (en - st) (Z.of_nat n)).
    + destruct (Nat.ltb_spec (Z.to_nat (en - st)) n); [|lia]. simpl.
      repeat split; try reflexivity; lia.
    + destruct (Nat.ltb_spec (Z.to_nat (en - st)) n); [lia|]. simpl.
      destruct (unread_after mem st en n ltac:(lia) ltac:(lia)) as [H1 H2].
      rewrite H1, H2. repeat split; try reflexivity; lia.
  - intros [st en] buf Hr He Hn. split; [|reflexivity].
    unfold read, read_bytes. reflexivity.
Qed.

Lemma slice_reader_refines_slice_witness :
  fst (read_bytes (fun a => a - 100) 2 (new 100 3))
    = fst (slice_read_bytes 2 (unread (fun a => a - 100) (new 100 3)))
  /\ fst (read_bytes (fun a => a - 100) 2 (new 100 3)) = Ok [0; 1].
Proof.
  split.
  - apply (proj1 (proj1 (proj2 (slice_reader_refines_slice (fun a => a - 100)))
                        (new 100 3) 2%nat ltac:(vm_compute; split; congruence)
                        ltac:(vm_compute; reflexivity) ltac:(vm_compute; reflexivity))).
  - vm_compute. reflexivity.
Defined.

(** The slice operations through [WithPosition] advance [pos] by exactly
    the bytes they take off the slice, and by at most the size asked. *)
Lemma wp_slice_ops (w : WithPosition (list Z)) (n : nat) (buf : list Z) :
  (tracks w (snd (wp_skip slice_skip n w)) /\ (pos (snd (wp_skip slice_skip n w)) <= pos w + n)%nat)
  /\ (tracks w (snd (wp_read_bytes slice_read_bytes n w))
      /\ (pos (snd (wp_read_bytes slice_read_bytes n w)) <= pos w + n)%nat)
  /\ (tracks w (snd (wp_read slice_read buf w))
      /\ (pos (snd (wp_read slice_read buf w)) <= pos w + length buf)%nat)
  /\ (tracks w (snd (wp_read_byte slice_read_byte w))
      /\ (pos (snd (wp_read_byte slice_read_byte w)) <= pos w + 1)%nat)
  /\ (tracks w (snd (wp_read_array slice_read_array n w))
      /\ (pos (snd (wp_read_array slice_read_array n w)) <= pos w + n)%nat).
Proof.
  assert (Hadv : forall p k (s : list Z),
            tracks (mkWithPosition p s) (mkWithPosition (p + k) (skipn k s))).
  { intros p k s. unfold tracks; simpl. split; [lia|]. f_equal. lia. }
  assert (Hrefl : forall w : WithPosition (list Z), tracks w w).
  { intros [p s]. unfold tracks; simpl. split; [lia|]. now rewrite Nat.sub_diag. }
  destruct w as [p s].
  unfold wp_skip, wp_read_bytes, wp_read, wp_read_byte, wp_read_array,
    slice_read_byte, slice_read_array, slice_skip, slice_read_bytes, slice_read; simpl.
  repeat match goal with |- _ /\ _ => split end;
    repeat match goal with
    | |- context [(length ?s <? ?n)%nat] => destruct (Nat.ltb_spec (length s) n)
    end; simpl; try rewrite length_firstn;
    try rewrite Nat.min_l by lia; try apply Hadv; try apply Hrefl; try lia.
  all: destruct s as [|b s]; simpl in *; try lia.
  all: apply (Hadv p 1%nat (b :: s)).
Qed.

(** [WithPosition] over a slice: after any operation, failing or not,
    [pos] has grown by exactly the number of bytes taken off the slice; a
    successful [skip n] or [read_bytes n] advances it by [n] and
    [read_bytes] returns the bytes skipped over. *)
Theorem with_position_counts_bytes (w : WithPosition (list Z)) (n : nat) (buf : list Z) :
  tracks w (snd (wp_skip slice_skip n w))
  /\ tracks w (snd (wp_read_bytes slice_read_bytes n w))
  /\ tracks w (snd (wp_read slice_read buf w))
  /\ tracks w (snd (wp_read_byte slice_read_byte w))
  /\ tracks w (snd (wp_read_array slice_read_array n w))
  /\ (forall w', wp_skip slice_skip n w = (Ok tt, w') -> pos w' = (pos w + n)%nat)
  /\ (forall bytes w', wp_read_bytes slice_read_bytes n w = (Ok bytes, w') ->
        pos w' = (pos w + n)%nat /\ bytes ++ reader w' = reader w).
Proof.
  destruct (wp_slice_ops w n buf) as [[H1 _] [[H2 _] [[H3 _] [[H4 _] [H5 _]]]]].
  repeat match goal with |- _ /\ _ => split end; try assumption.
  - destruct w as [p s]. unfold wp_skip, slice_skip; simpl.
    destruct (length s <? n)%nat; simpl; intros w' E; [discriminate|].
    injection E as <-. reflexivity.
  - destruct w as [p s]. unfold wp_read_bytes, slice_read_bytes; simpl.
    destruct (Nat.ltb_spec (length s) n); simpl; intros bytes w' E; [discriminate|].
    injection E as <- <-. simpl. rewrite length_firstn, Nat.min_l by lia.
    split; [reflexivity|apply firstn_skipn].
Qed.

Lemma with_position_counts_bytes_witness :
  wp_read_bytes slice_read_bytes 2 (mkWithPosition 5 [1; 2; 3]) = (Ok [1; 2], mkWithPosition 7 [3])
  /\ (pos (mkWithPosition 7 [3]) = (5 + 2)%nat /\ [1; 2] ++ reader (mkWithPosition 7 [3]) = [1; 2; 3]).
Proof.
  split; [reflexivity|].
  exact (proj2 (proj2 (proj2 (proj2 (proj2 (proj2
           (with_position_counts_bytes (mkWithPosition 5 [1; 2; 3]) 2 []))))))
           [1; 2] (mkWithPosition 7 [3]) eq_refl).
Defined.

Lemma stack_call_inv (s : list Z) (k : nat) (c : ReaderCall) (l : Stack) :
  (limit_pos l + remaining l <= k)%nat -> reader (Reader.reader l) = skipn (limit_pos l) s ->
  (limit_pos (stack_call c l) + remaining (stack_call c l) <= k)%nat
  /\ reader (Reader.reader (stack_call c l)) = skipn (limit_pos (stack_call c l)) s.
Proof.
  intros Hk Hs. destruct l as [rem w]. unfold limit_pos in *; simpl in *.
  assert (Hgen : forall (A : Type) (m : nat) (op : WithPosition (list Z) -> result A SliceReaderError * WithPosition (list Z)),
            tracks w (snd (op w)) -> (pos (snd (op w)) <= pos w + m)%nat ->
            let l' := snd (checked OutOfBounds m op (mkLimit rem w)) in
            (pos (Reader.reader l') + remaining l' <= k)%nat
            /\ reader (Reader.reader l') = skipn (pos (Reader.reader l')) s).
  { intros A m op [Hle Hr] Hm. unfold checked, bounds_check; simpl.
    destruct (Nat.leb_spec m rem); simpl.
    - destruct (op w) as [res w'] eqn:E; simpl in *. split; [lia|].
      rewrite Hr, Hs, skipn_skipn. f_equal. lia.
    - split; assumption. }
  destruct c as [n|n|buf| |n]; simpl;
    [ destruct (wp_slice_ops w n []) as [[Ht Hp] _]
    | destruct (wp_slice_ops w n []) as [_ [[Ht Hp] _]]
    | destruct (wp_slice_ops w 0 buf) as [_ [_ [[Ht Hp] _]]]
    | destruct (wp_slice_ops w 0 []) as [_ [_ [_ [[Ht Hp] _]]]]
    | destruct (wp_slice_ops w n []) as [_ [_ [_ [_ [Ht Hp]]]]] ];
    apply Hgen; assumption.
Qed.

(** [slice.with_position().limit(k)] as the wire decoder builds it for a
    packed value: whatever calls a client makes through the limit, and
    whether they fail or not, the position never passes [k], the position
    plus the budget left never exceeds [k], and the bytes left in the
    slice are those after the position. *)
Theorem limit_bounds_position (s : list Z) (k : nat) (cs : list ReaderCall) :
  let l := run_calls cs (mkLimit k (with_position s)) in
  (limit_pos l <= k)%nat /\ (limit_pos l + remaining l <= k)%nat
  /\ reader (Reader.reader l) = skipn (limit_pos l) s.
Proof.
  simpl. unfold run_calls.
  assert (H : forall cs l, (limit_pos l + remaining l <= k)%nat ->
            reader (Reader.reader l) = skipn (limit_pos l) s ->
            let l' := fold_left (fun l c => stack_call c l) cs l in
            (limit_pos l' + remaining l' <= k)%nat
            /\ reader (Reader.reader l') = skipn (limit_pos l') s).
  { induction cs0 as [|c cs0 IH]; intros l H1 H2; simpl; [split; assumption|].
    destruct (stack_call_inv s k c l H1 H2). apply IH; assumption. }
  destruct (H cs (mkLimit k (with_position s))) as [H1 H2]; simpl; [unfold limit_pos; simpl; lia|reflexivity|].
  split; [lia|split; assumption].
Qed.

End ReaderExtFacts.

(** ** The typed decoders of the wire format *)
Module WireDeFacts.
Import Int Wire WireDe IntFacts WireFacts.

Lemma split_app (a b : list Z) : firstn (length a) (a ++ b) = a /\ skipn (length a) (a ++ b) = b.
Proof. induction a as [|x a IH]; simpl; [split; reflexivity|]. destruct IH as [-> ->]. split; reflexivity. Qed.

Lemma read_bytes_app (a b : list Z) :
  read_bytes (Z.of_nat (length a)) (a ++ b) = Ok (a, b).
Proof.
  unfold read_bytes. rewrite length_app, Nat2Z.id.
  destruct (Z.ltb_spec (Z.of_nat (length a + length b)) (Z.of_nat (length a))); [lia|].
  destruct (split_app a b) as [-> ->]. reflexivity.
Qed.

Lemma wf_bytes_len (bs : list Z) : wf (WBytes bs) = true -> 0 <= Z.of_nat (length bs) < 2 ^ 64.
Proof. cbn [wf]. intros H. apply andb_true_iff in H as [_ H]. apply Z.ltb_lt in H. lia. Qed.

Lemma wf_seq_len (xs : list WireValue) : wf (WSeq xs) = true -> 0 <= Z.of_nat (length xs) < 2 ^ 64.
Proof. cbn [wf]. intros H. apply andb_true_iff in H as [_ H]. apply Z.ltb_lt in H. lia. Qed.

Lemma wf_seq_items (xs : list WireValue) : wf (WSeq xs) = true -> forall x, In x xs -> wf x = true.
Proof.
  cbn [wf]. intros H. apply andb_true_iff in H as [H _]. rewrite forallb_forall in H. exact H.
Qed.

(** The first byte of a well-formed encoding and its tag kind. *)
Lemma encode_first_kind (v : WireValue) (r : list Z) : wf v = true ->
  exists b r1, encode v ++ r = b :: r1
  /\ tag_kind b = Some (match v with
                        | WByte _ => KByte
                        | WUnsigned _ => KContinuation
                        | WBytes _ => KPrefix
                        | WSeq _ | WMap _ => KSequence
                        end).
Proof.
  intros Hwf. destruct v as [b|n|bs|xs|kvs]; cbn [encode].
  - cbn [wf] in Hwf. unfold is_u8 in Hwf.
    destruct (Z.ltb_spec b DATA_MASK); simpl.
    + eexists; eexists; split; [reflexivity|]. apply tag_new_spec. unfold DATA_MASK in *; lia.
    + eexists; eexists; split; [reflexivity|]. apply tag_new_spec. unfold DATA_MASK; lia.
  - cbn [wf] in Hwf. apply andb_true_iff in Hwf as [H1 _]. apply Z.leb_le in H1.
    destruct (Z.ltb_spec n DATA_MASK); simpl.
    + eexists; eexists; split; [reflexivity|]. apply tag_new_spec. unfold DATA_MASK in *; lia.
    + eexists; eexists; split; [reflexivity|]. apply tag_new_spec. unfold DATA_MASK; lia.
  - destruct (encode_len_read KPrefix _ (bs ++ r) (wf_bytes_len bs Hwf)) as (b & r1 & E & Hk & _).
    exists b, r1. rewrite <- app_assoc. split; assumption.
  - destruct (encode_len_read KSequence _ (flat_map encode xs ++ r) (wf_seq_len xs Hwf))
      as (b & r1 & E & Hk & _).
    exists b, r1. rewrite <- app_assoc. split; assumption.
  - cbn [wf] in Hwf. apply andb_true_iff in Hwf as [_ H]. apply Z.ltb_lt in H.
    destruct (encode_len_read KSequence (2 * Z.of_nat (length kvs))
                (flat_map (fun kv => encode (fst kv) ++ encode (snd kv)) kvs ++ r) ltac:(lia))
      as (b & r1 & E & Hk & _).
    exists b, r1. rewrite <- app_assoc. split; assumption.
Qed.

Lemma tag_bool : tag_new KByte 0 = 32 /\ tag_new KByte 1 = 33.
Proof. split; reflexivity. Qed.

(** [decode_bool] accepts exactly the two bytes [Tag::new(Byte, 0)] and
    [Tag::new(Byte, 1)], which are the encodings of the bytes 0 and 1, and
    reads nothing more; any other byte is a bad boolean, and an empty
    input runs the reader dry. *)
Theorem decode_bool_accepts_two_tags :
  decode_bool [] = Err (DRead Underflow)
  /\ (forall r x r', decode_bool r = Ok (x, r') <-> r = tag_new KByte (if x then 1 else 0) :: r')
  /\ (forall b r', b <> tag_new KByte 0 -> b <> tag_new KByte 1 ->
        decode_bool (b :: r') = Err DBadBoolean)
  /\ (forall (x : bool) r', decode_bool (encode (WByte (if x then 1 else 0)) ++ r') = Ok (x, r')).
Proof.
  destruct tag_bool as [H0 H1].
  split; [reflexivity|split; [|split]].
  - intros r x r'. unfold decode_bool. rewrite H0, H1.
    destruct r as [|b r]; simpl; [split; [discriminate|intros E; discriminate]|].
    destruct (Z.eqb_spec b 32); [subst|destruct (Z.eqb_spec b 33); [subst|]].
    + destruct x; split; intros E; try discriminate; try (injection E as <-; reflexivity);
        injection E as E _; discriminate.
    + destruct x; split; intros E; try discriminate; try (injection E as <-; reflexivity);
        injection E as E _; discriminate.
    + split; intros E; [discriminate|]. injection E as E _. destruct x; congruence.
  - intros b r' Hb0 Hb1. unfold decode_bool; simpl.
    destruct (Z.eqb_spec b (tag_new KByte 0)); [contradiction|].
    destruct (Z.eqb_spec b (tag_new KByte 1)); [contradiction|]. reflexivity.
  - intros [] r'; reflexivity.
Qed.

Lemma decode_bool_accepts_two_tags_witness :
  7 <> tag_new KByte 0 /\ 7 <> tag_new KByte 1 /\ decode_bool [7] = Err DBadBoolean.
Proof.
  split; [vm_compute; congruence|split; [vm_compute; congruence|]].
  apply (proj1 (proj2 (proj2 decode_bool_accepts_two_tags)) 7 []);
    vm_compute; congruence.
Defined.

Lemma tag_seq_other (n : Z) : 2 <= n < 32 ->
  tag_new KSequence n <> tag_new KSequence 0 /\ tag_new KSequence n <> tag_new KSequence 1.
Proof.
  intros Hn. destruct (tag_new_spec KSequence n ltac:(lia)) as [_ Hd].
  destruct (tag_new_spec KSequence 0 ltac:(lia)) as [_ H0].
  destruct (tag_new_spec KSequence 1 ltac:(lia)) as [_ H1].
  unfold DATA_MASK in *. simpl in H0, H1.
  split; intros E; rewrite E in Hd; [rewrite H0 in Hd|rewrite H1 in Hd];
    destruct (Z.ltb_spec n 31); try discriminate; injection Hd; lia.
Qed.

(** [decode_option] reads an empty sequence as [None] and a one-element
    sequence as [Some], leaving the reader at the element; a sequence of
    two or more elements, or any other byte, is refused. *)
Theorem decode_option_zero_or_one :
  (forall r, decode_option (encode (WSeq []) ++ r) = Ok (None, r))
  /\ (forall x r, decode_option (encode (WSeq [x]) ++ r) = Ok (Some tt, encode x ++ r))
  /\ (forall xs r, (2 <= length xs)%nat -> wf (WSeq xs) = true ->
        decode_option (encode (WSeq xs) ++ r) = Err DExpectedOption)
  /\ (forall b r, b <> tag_new KSequence 0 -> b <> tag_new KSequence 1 ->
        decode_option (b :: r) = Err DExpectedOption).
Proof.
  split; [|split; [|split]].
  - intros r. reflexivity.
  - intros x r. cbn [encode flat_map]. rewrite app_nil_r. reflexivity.
  - intros xs r Hl Hwf. pose proof (wf_seq_len xs Hwf) as Hn.
    cbn [encode]. unfold encode_len. rewrite <- app_assoc.
    destruct (Z.ltb_spec (Z.of_nat (length xs)) DATA_MASK); unfold DATA_MASK in *; simpl.
    + destruct (tag_seq_other (Z.of_nat (length xs)) ltac:(lia)) as [N0 N1].
      unfold decode_option; simpl.
      destruct (Z.eqb_spec (tag_new KSequence (Z.of_nat (length xs))) (tag_new KSequence 0));
        [contradiction|].
      destruct (Z.eqb_spec (tag_new KSequence (Z.of_nat (length xs))) (tag_new KSequence 1));
        [contradiction|reflexivity].
    + reflexivity.
  - intros b r N0 N1. unfold decode_option; simpl.
    destruct (Z.eqb_spec b (tag_new KSequence 0)); [contradiction|].
    destruct (Z.eqb_spec b (tag_new KSequence 1)); [contradiction|reflexivity].
Qed.

Lemma decode_option_zero_or_one_witness :
  (2 <= length [WByte 1; WByte 2])%nat /\ wf (WSeq [WByte 1; WByte 2]) = true
  /\ decode_option (encode (WSeq [WByte 1; WByte 2]) ++ []) = Err DExpectedOption.
Proof.
  split; [simpl; lia|split; [vm_compute; reflexivity|]].
  apply (proj1 (proj2 (proj2 decode_option_zero_or_one)));
    [simpl; lia|vm_compute; reflexivity].
Defined.

(** [decode_u8] reads back every byte as the encoder writes it, embedded
    in the tag or following it, and [decode_i8] reads the byte of an [i8]
    back as that [i8]; the encoding of any other well-formed value is
    refused as not a [Byte] tag. *)
Theorem decode_u8_roundtrip :
  (forall b r, 0 <= b < 256 -> decode_u8 (encode (WByte b) ++ r) = Ok (b, r))
  /\ (forall s r, -128 <= s < 128 -> decode_i8 (encode (WByte (s mod 256)) ++ r) = Ok (s, r))
  /\ (forall v r, wf v = true -> (forall b, v <> WByte b) ->
        decode_u8 (encode v ++ r) = Err (DExpected KByte)).
Proof.
  assert (Hu8 : forall b r, 0 <= b < 256 -> decode_u8 (encode (WByte b) ++ r) = Ok (b, r)).
  { intros b r Hb. cbn [encode]. destruct (Z.ltb_spec b DATA_MASK); unfold DATA_MASK in *.
    - destruct (tag_new_spec KByte b ltac:(lia)) as [Hk Hd].
      unfold decode_u8; cbn [read_byte app]. rewrite Hk, Hd. unfold DATA_MASK.
      destruct (Z.ltb_spec b 31); [reflexivity|lia].
    - destruct (tag_new_spec KByte 31 ltac:(lia)) as [Hk Hd].
      unfold decode_u8; cbn [read_byte app]. rewrite Hk, Hd. reflexivity. }
  split; [exact Hu8|split].
  - intros s r Hs. unfold decode_i8.
    rewrite Hu8 by (apply Z.mod_pos_bound; lia). f_equal. f_equal.
    unfold to_signed. change (2 ^ 8) with 256. rewrite Z.mod_mod by lia.
    destruct (Z.leb_spec 0 s).
    + rewrite Z.mod_small by lia. destruct (Z.ltb_spec s (2 ^ (8 - 1))); [reflexivity|].
      change (2 ^ (8 - 1)) with 128 in *. lia.
    + replace (s mod 256) with (s + 256) by (apply Z.mod_unique with (-1); lia).
      change (2 ^ (8 - 1)) with 128. destruct (Z.ltb_spec (s + 256) 128); lia.
  - intros v r Hwf Hnb. destruct (encode_first_kind v r Hwf) as (b & r1 & E & Hk).
    rewrite E. unfold decode_u8; cbn [read_byte app]. rewrite Hk.
    destruct v; try reflexivity. exfalso. eapply Hnb. reflexivity.
Qed.

Lemma decode_u8_roundtrip_witness :
  -128 <= -1 < 128 /\ decode_i8 (encode (WByte ((-1) mod 256)) ++ [5]) = Ok (-1, [5]).
Proof.
  split; [lia|]. apply (proj1 (proj2 decode_u8_roundtrip)). lia.
Defined.

(** [decode_bytes] reads back a byte string as the encoder writes it: the
    [Prefix] tag, its length, then the bytes, stopping right after them;
    with its last byte missing the input runs the reader dry. *)
Theorem decode_bytes_roundtrip :
  (forall bs r, wf (WBytes bs) = true -> decode_bytes (encode (WBytes bs) ++ r) = Ok (bs, r))
  /\ (forall bs, wf (WBytes bs) = true -> bs <> [] ->
        decode_bytes (removelast (encode (WBytes bs))) = Err (DRead Underflow)).
Proof.
  split.
  - intros bs r Hwf. cbn [encode]. rewrite <- app_assoc.
    destruct (encode_len_read KPrefix _ (bs ++ r) (wf_bytes_len bs Hwf)) as (b & r1 & E & Hk & Hl).
    rewrite E. unfold decode_bytes; simpl. rewrite Hk, Hl. unfold lift. rewrite read_bytes_app.
    reflexivity.
  - intros bs Hwf Hne. cbn [encode]. rewrite removelast_app by assumption.
    destruct (encode_len_read KPrefix _ (removelast bs) (wf_bytes_len bs Hwf))
      as (b & r1 & E & Hk & Hl).
    rewrite E. unfold decode_bytes; simpl. rewrite Hk, Hl. unfold lift, read_bytes.
    pose proof (f_equal (@length Z) (app_removelast_last 0 Hne)) as Ebs.
    rewrite length_app in Ebs. simpl in Ebs.
    destruct (Z.ltb_spec (Z.of_nat (length (removelast bs))) (Z.of_nat (length bs)));
      [reflexivity|lia].
Qed.

Lemma decode_bytes_roundtrip_witness :
  wf (WBytes [7; 8]) = true /\ decode_bytes (encode (WBytes [7; 8]) ++ [9]) = Ok ([7; 8], [9]).
Proof.
  split; [vm_compute; reflexivity|].
  apply (proj1 decode_bytes_roundtrip). vm_compute. reflexivity.
Defined.

(** [decode_array::<N>] reads back a byte string of exactly [N] bytes and
    refuses any other length with [BadLength], before reading the bytes. *)
Theorem decode_array_checks_length (N : Z) :
  forall bs r, wf (WBytes bs) = true ->
  decode_array N (encode (WBytes bs) ++ r)
  = if Z.of_nat (length bs) =? N then Ok (bs, r)
    else Err (DBadLength (Z.of_nat (length bs)) N).
Proof.
  intros bs r Hwf. cbn [encode]. rewrite <- app_assoc.
  destruct (encode_len_read KPrefix _ (bs ++ r) (wf_bytes_len bs Hwf)) as (b & r1 & E & Hk & Hl).
  rewrite E. unfold decode_array, decode_prefix; simpl. rewrite Hk. unfold lift. rewrite Hl.
  destruct (Z.eqb_spec (Z.of_nat (length bs)) N) as [<-|]; simpl; [|reflexivity].
  rewrite read_bytes_app. reflexivity.
Qed.

Lemma decode_array_checks_length_witness :
  wf (WBytes [7; 8]) = true
  /\ decode_array 3 (encode (WBytes [7; 8]) ++ []) = Err (DBadLength 2 3).
Proof.
  split; [vm_compute; reflexivity|].
  apply (decode_array_checks_length 3 [7; 8] []). vm_compute. reflexivity.
Defined.

(** [decode_pack] on an encoded byte string hands out a reader limited to
    those bytes: through it, reading [n] bytes returns the first [n] of
    them when [n] is within the string, and is refused otherwise, without
    ever reaching the bytes that follow the string. *)
Theorem decode_pack_limits_to_prefix :
  forall bs r, wf (WBytes bs) = true ->
  decode_pack (encode (WBytes bs) ++ r) = Ok (Reader.mkLimit (length bs) (bs ++ r))
  /\ forall n,
     Reader.limit_read_bytes Reader.slice_read_bytes Reader.OutOfBounds n
       (Reader.mkLimit (length bs) (bs ++ r))
     = if (n <=? length bs)%nat
       then (Ok (firstn n bs), Reader.mkLimit (length bs - n) (skipn n bs ++ r))
       else (Err Reader.OutOfBounds, Reader.mkLimit (length bs) (bs ++ r)).
Proof.
  intros bs r Hwf. split.
  - cbn [encode]. rewrite <- app_assoc.
    destruct (encode_len_read KPrefix _ (bs ++ r) (wf_bytes_len bs Hwf)) as (b & r1 & E & Hk & Hl).
    rewrite E. unfold decode_pack, decode_prefix; simpl. rewrite Hk. unfold lift. rewrite Hl.
    rewrite Nat2Z.id. reflexivity.
  - intros n. unfold Reader.limit_read_bytes, Reader.checked, Reader.bounds_check; simpl.
    destruct (Nat.leb_spec n (length bs)); [|reflexivity]. simpl.
    unfold Reader.slice_read_bytes. rewrite length_app.
    destruct (Nat.ltb_spec (length bs + length r) n); [lia|].
    rewrite firstn_app, skipn_app. replace (n - length bs)%nat with O by lia.
    simpl. rewrite app_nil_r. reflexivity.
Qed.

Lemma decode_pack_limits_to_prefix_witness :
  wf (WBytes [7; 8]) = true
  /\ Reader.limit_read_bytes Reader.slice_read_bytes Reader.OutOfBounds 3
       (Reader.mkLimit 2 [7; 8; 9]) = (Err Reader.OutOfBounds, Reader.mkLimit 2 [7; 8; 9]).
Proof.
  split; [vm_compute; reflexivity|].
  exact (proj2 (decode_pack_limits_to_prefix [7; 8] [9] ltac:(vm_compute; reflexivity)) 3%nat).
Defined.

Lemma sequence_yielded_remaining (k : nat) : forall m r, 0 <= m -> (Z.to_nat m < k)%nat ->
  sequence_yielded k (mkRemaining m r) = Z.to_nat m.
Proof.
  induction k as [|k IH]; intros m r Hm Hk; [lia|].
  simpl. unfold sequence_next. simpl. destruct (Z.eqb_spec m 0) as [->|Hne]; [reflexivity|].
  rewrite IH by lia. lia.
Qed.

(** [decode_sequence] reads back a sequence as the encoder writes it: the
    recorded length is the number of elements (not halved as for maps),
    the reader stops at the first element, and [next] then hands out
    exactly that many element decoders. A byte of another kind is refused. *)
Theorem decode_sequence_roundtrip :
  (forall xs r, wf (WSeq xs) = true ->
     decode_sequence (encode (WSeq xs) ++ r)
     = Ok (mkRemaining (Z.of_nat (length xs)) (flat_map encode xs ++ r))
     /\ sequence_yielded (S (length xs))
          (mkRemaining (Z.of_nat (length xs)) (flat_map encode xs ++ r)) = length xs)
  /\ (forall b r, tag_kind b <> Some KSequence -> decode_sequence (b :: r) = Err Expected).
Proof.
  split.
  - intros xs r Hwf. split.
    + cbn [encode]. rewrite <- app_assoc.
      destruct (encode_len_read KSequence _ (flat_map encode xs ++ r) (wf_seq_len xs Hwf))
        as (b & r1 & E & Hk & Hl).
      rewrite E. unfold decode_sequence, shared_decode_sequence, decode_sequence_len; simpl.
      rewrite Hk, Hl. reflexivity.
    + rewrite sequence_yielded_remaining by lia. lia.
  - intros b r Hb. unfold decode_sequence, shared_decode_sequence, decode_sequence_len; simpl.
    destruct (tag_kind b) as [[]|]; try reflexivity. contradiction.
Qed.

Lemma decode_sequence_roundtrip_witness :
  wf (WSeq [WByte 1; WUnsigned 500]) = true
  /\ sequence_yielded 3 (mkRemaining 2 (flat_map encode [WByte 1; WUnsigned 500] ++ []))
     = length [WByte 1; WUnsigned 500].
Proof.
  split; [vm_compute; reflexivity|].
  exact (proj2 (proj1 decode_sequence_roundtrip [WByte 1; WUnsigned 500] []
                  ltac:(vm_compute; reflexivity))).
Defined.

Lemma skip_any_top_encode (v : WireValue) (r : list Z) : wf v = true ->
  skip_any_top (encode v ++ r) = Ok r.
Proof.
  intros Hwf. unfold skip_any_top. apply skip_any_encode; [assumption|].
  rewrite length_app. lia.
Qed.

(** [decode_variant] reads a variant written as a sequence of its tag and
    its value: two items give a non-empty variant whose [skip_second],
    once the tag is read, skips the value and stops after it; one item (a
    tag alone) gives an empty variant whose [skip_second] reads nothing;
    any other number of items is refused. *)
Theorem decode_variant_tag_value :
  (forall t v r, wf t = true -> wf v = true ->
     decode_variant (encode (WSeq [t; v]) ++ r) = Ok (mkVariant false (encode t ++ encode v ++ r))
     /\ skip_any_top (encode t ++ encode v ++ r) = Ok (encode v ++ r)
     /\ variant_skip_second (mkVariant false (encode v ++ r)) = Ok (true, r))
  /\ (forall t r, wf t = true ->
     decode_variant (encode (WSeq [t]) ++ r) = Ok (mkVariant true (encode t ++ r))
     /\ skip_any_top (encode t ++ r) = Ok r
     /\ variant_skip_second (mkVariant true r) = Ok (true, r))
  /\ (forall xs r, wf (WSeq xs) = true -> (length xs = 0 \/ 3 <= length xs)%nat ->
     decode_variant (encode (WSeq xs) ++ r) = Err (DExpected KSequence)).
Proof.
  split; [|split].
  - intros t v r Ht Hv. cbn [encode flat_map]. rewrite app_nil_r, <- !app_assoc.
    split; [reflexivity|]. split; [apply skip_any_top_encode; assumption|].
    unfold variant_skip_second; simpl. rewrite skip_any_top_encode by assumption. reflexivity.
  - intros t r Ht. cbn [encode flat_map]. rewrite app_nil_r.
    split; [reflexivity|]. split; [apply skip_any_top_encode; assumption|reflexivity].
  - intros xs r Hwf Hl. pose proof (wf_seq_len xs Hwf) as Hn.
    cbn [encode]. unfold encode_len. rewrite <- app_assoc.
    destruct (Z.ltb_spec (Z.of_nat (length xs)) DATA_MASK); unfold DATA_MASK in *.
    + destruct (tag_new_spec KSequence (Z.of_nat (length xs)) ltac:(lia)) as [Hk Hd].
      unfold decode_variant; cbn [read_byte app]. rewrite Hk, Hd. unfold DATA_MASK.
      destruct (Z.ltb_spec (Z.of_nat (length xs)) 31); [|lia].
      destruct Hl as [Hl|Hl].
      * rewrite Hl. reflexivity.
      * destruct (Z.of_nat (length xs)) as [|[p|[p|p|]|]|p] eqn:Ez; try reflexivity; lia.
    + destruct (tag_new_spec KSequence 31 ltac:(lia)) as [Hk Hd].
      unfold decode_variant; cbn [read_byte app]. rewrite Hk, Hd. reflexivity.
Qed.

Lemma decode_variant_tag_value_witness :
  decode_variant (encode (WSeq [WByte 3; WUnsigned 70]) ++ [0])
  = Ok (mkVariant false (encode (WByte 3) ++ encode (WUnsigned 70) ++ [0]))
  /\ skip_any_top (encode (WByte 3) ++ encode (WUnsigned 70) ++ [0])
     = Ok (encode (WUnsigned 70) ++ [0])
  /\ variant_skip_second (mkVariant false (encode (WUnsigned 70) ++ [0])) = Ok (true, [0]).
Proof.
  exact (proj1 decode_variant_tag_value (WByte 3) (WUnsigned 70) [0]
           ltac:(vm_compute; reflexivity) ltac:(vm_compute; reflexivity)).
Defined.

(** [MaybeWireDecoder] never returns from [decode_bool] or
    [decode_unit_struct] when it is not empty: each calls itself again,
    whatever bound is put on the recursion. When empty, [decode_bool] fails
    with "tried to decode empty value", [decode_unit_struct] and
    [decode_unit] succeed without reading, [decode_option] gives [None],
    and the checked decoders such as [decode_u8] fail; when not empty,
    [decode_option] and [decode_u8] are the inner decoder's. *)
Theorem maybe_decoder_empty_and_recursion :
  (forall fuel r, maybe_decode_bool fuel (mkMaybe false r) = Err DExhausted
                  /\ maybe_decode_unit_struct fuel (mkMaybe false r) = Err DExhausted)
  /\ (forall fuel r, maybe_decode_bool (S fuel) (mkMaybe true r) = Err DEmpty
                     /\ maybe_decode_unit_struct (S fuel) (mkMaybe true r) = Ok tt)
  /\ (forall r, maybe_decode_option (mkMaybe true r) = Ok (None, r)
                /\ maybe_decode_unit (mkMaybe true r) = Ok r
                /\ maybe_decode_u8 (mkMaybe true r) = Err DEmpty)
  /\ (forall r, maybe_decode_option (mkMaybe false r) = decode_option r
                /\ maybe_decode_u8 (mkMaybe false r) = decode_u8 r).
Proof.
  split; [|split; [|split]].
  - intros fuel r. induction fuel as [|fuel [IH1 IH2]]; [split; reflexivity|].
    simpl. rewrite IH2. split; [exact IH1|reflexivity].
  - intros fuel r. split; reflexivity.
  - intros r. repeat split.
  - intros r. split; reflexivity.
Qed.

End WireDeFacts.

(** ** The storage encoder *)
Module StorageEnFacts.
Import Int StorageEn IntFacts.

Lemma to_signed_mod (w s : Z) : 1 <= w -> - 2 ^ (w - 1) <= s < 2 ^ (w - 1) ->
  to_signed w (s mod 2 ^ w) = s.
Proof.
  intros Hw Hs. pose proof (pow_w w Hw) as Hp. unfold to_signed. rewrite Z.mod_mod by lia.
  destruct (Z.leb_spec 0 s).
  - rewrite Z.mod_small by lia. destruct (Z.ltb_spec s (2 ^ (w - 1))); lia.
  - replace (s mod 2 ^ w) with (s + 2 ^ w) by (apply Z.mod_unique with (-1); lia).
    destruct (Z.ltb_spec (s + 2 ^ w) (2 ^ (w - 1))); lia.
Qed.

Lemma fold_append (vectors : list (list Z)) : forall out,
  fold_left (fun out bytes => out ++ bytes) vectors out = out ++ concat vectors.
Proof.
  induction vectors as [|v vs IH]; intros out; simpl.
  - rewrite app_nil_r. reflexivity.
  - rewrite IH, app_assoc. reflexivity.
Qed.

Lemma sum_lengths (vectors : list (list Z)) :
  fold_right Nat.add O (map (@length Z) vectors) = length (concat vectors).
Proof.
  induction vectors as [|v vs IH]; simpl; [reflexivity|]. rewrite IH, length_app. reflexivity.
Qed.

(** [encode_bytes_vectored] writes exactly what [encode_bytes] writes for
    the concatenation of the slices: one length prefix for the summed
    length, then the slices back to back. *)
Theorem encode_bytes_vectored_concat (vectors : list (list Z)) :
  encode_bytes_vectored vectors = encode_bytes (concat vectors).
Proof.
  unfold encode_bytes_vectored, encode_bytes. rewrite fold_append, sum_lengths. reflexivity.
Qed.

(** The length prefix [encode_bytes] writes reads back, with the variable
    [usize] decoding, as the byte count, and that many bytes follow it:
    reading them returns the bytes and stops at what comes next. *)
Theorem encode_bytes_framing (bs rest : list Z) :
  Z.of_nat (length bs) < 2 ^ 64 ->
  decode_usize (encode_bytes bs ++ rest) = Ok (Z.of_nat (length bs), bs ++ rest)
  /\ Reader.slice_read_bytes (Z.to_nat (Z.of_nat (length bs))) (bs ++ rest) = (Ok bs, rest).
Proof.
  intros Hl. split.
  - unfold decode_usize, encode_bytes, encode_usize. rewrite <- app_assoc.
    apply c_decode_encode; lia.
  - rewrite Nat2Z.id. unfold Reader.slice_read_bytes. rewrite length_app.
    destruct (Nat.ltb_spec (length bs + length rest) (length bs)); [lia|].
    rewrite firstn_app, skipn_app, Nat.sub_diag, firstn_all, skipn_all. simpl.
    rewrite app_nil_r. reflexivity.
Qed.

Lemma encode_bytes_framing_witness :
  Z.of_nat (length [7; 8; 9]) < 2 ^ 64
  /\ decode_usize (encode_bytes [7; 8; 9] ++ [1]) = Ok (Z.of_nat (length [7; 8; 9]), [7; 8; 9] ++ [1]).
Proof.
  split; [simpl; lia|]. apply (proj1 (encode_bytes_framing [7; 8; 9] [1] ltac:(simpl; lia))).
Defined.

(** [encode_isize] and [encode_i8] write the two's complement of the
    value ([as usize], [as u8]): the [usize] read back is [v mod 2^64],
    which reinterpreted as an [isize] is [v] again; [encode_i8] writes one
    byte, which reinterpreted as an [i8] is [v]. *)
Theorem signed_casts_roundtrip :
  (forall v r, - 2 ^ 63 <= v < 2 ^ 63 ->
     decode_usize (encode_isize v ++ r) = Ok (v mod 2 ^ 64, r)
     /\ to_signed 64 (v mod 2 ^ 64) = v)
  /\ (forall v, -128 <= v < 128 ->
     exists b, encode_i8 v = [b] /\ 0 <= b < 256 /\ to_signed 8 b = v).
Proof.
  split.
  - intros v r Hv. split.
    + unfold decode_usize, encode_isize, encode_usize. apply c_decode_encode; [lia|].
      apply Z.mod_pos_bound. lia.
    + apply to_signed_mod; [lia|]. exact Hv.
  - intros v Hv. exists (v mod 2 ^ 8). split; [reflexivity|]. split.
    + apply Z.mod_pos_bound. lia.
    + apply to_signed_mod; [lia|]. change (2 ^ (8 - 1)) with 128. lia.
Qed.

Lemma signed_casts_roundtrip_witness :
  decode_usize (encode_isize (-2) ++ [5]) = Ok ((-2) mod 2 ^ 64, [5])
  /\ to_signed 64 ((-2) mod 2 ^ 64) = -2.
Proof.
  apply (proj1 signed_casts_roundtrip). lia.
Defined.

End StorageEnFacts.

(** ** Signed integers in JSON *)
Module JsonSignedFacts.
Import Int Json JsonSigned.

Lemma half_max (w : Z) : 1 <= w -> Z.shiftr (2 ^ w - 1) 1 = 2 ^ (w - 1) - 1.
Proof.
  intros Hw. rewrite Z.shiftr_div_pow2 by lia. change (2 ^ 1) with 2.
  pose proof (IntFacts.pow_w w Hw) as Hp. rewrite Hp.
  symmetry. apply Z.div_unique with 1; lia.
Qed.

(** [negate] accepts an unsigned magnitude up to [2^(w-1)] and gives its
    negation; [signed] accepts one below [2^(w-1)] and keeps it; both
    refuse the rest. So [-2^(w-1)], the least signed value, is reachable
    only through [negate]. *)
Theorem negate_signed_range (t : UTy) (Hb : 1 <= bits t) :
  forall u, 0 <= u <= umax t ->
  negate t u = (if u <=? 2 ^ (bits t - 1) then Some (- u) else None)
  /\ signed t u = (if u <? 2 ^ (bits t - 1) then Some u else None).
Proof.
  intros u Hu. unfold umax in *. set (w := bits t) in *.
  pose proof (IntFacts.pow_w w Hb) as Hp.
  unfold negate, signed. unfold umax. fold w. rewrite half_max by lia.
  split.
  - destruct (Z.ltb_spec (2 ^ (w - 1) - 1 + 1) u); destruct (Z.leb_spec u (2 ^ (w - 1)));
      try lia; [reflexivity|].
    f_equal.
    replace (Z.land (Z.lnot u) (2 ^ w - 1)) with (2 ^ w - 1 - u).
    2:{ pose proof (Z.ones_equiv w) as Eo. rewrite <- Z.sub_1_r in Eo.
        rewrite <- Eo. rewrite Z.land_ones by lia. rewrite Eo, Z.lnot_eq_pred_opp.
        apply Z.mod_unique with (-1); lia. }
    unfold to_signed. rewrite Z.mod_mod by lia.
    destruct (Z.eqb_spec u 0) as [->|Hne].
    + replace ((2 ^ w - 1 - 0 + 1) mod 2 ^ w) with 0 by (apply Z.mod_unique with 1; lia).
      destruct (Z.ltb_spec 0 (2 ^ (w - 1))); lia.
    + rewrite Z.mod_small by lia. destruct (Z.ltb_spec (2 ^ w - 1 - u + 1) (2 ^ (w - 1))); lia.
  - destruct (Z.ltb_spec (2 ^ (w - 1) - 1) u); destruct (Z.ltb_spec u (2 ^ (w - 1)));
      try lia; [reflexivity|].
    f_equal. unfold to_signed. rewrite Z.mod_small by lia.
    destruct (Z.ltb_spec u (2 ^ (w - 1))); lia.
Qed.

Lemma negate_signed_range_witness :
  0 <= 128 <= umax U8 /\ negate U8 128 = Some (-128) /\ signed U8 128 = None.
Proof.
  split; [vm_compute; split; discriminate|].
  destruct (negate_signed_range U8 ltac:(vm_compute; discriminate) 128
              ltac:(vm_compute; split; discriminate)) as [H1 H2].
  rewrite H1, H2. split; reflexivity.
Defined.

(** [parse_signed] reads a ['-'] and then an unsigned number [u]: it
    returns [-u] when [u <= 2^(w-1)] and otherwise an overflow error
    spanning from the sign to where the number ended. Without the sign it
    reads the number as [parse_unsigned] does, and returns [u] only when
    [u < 2^(w-1)]. Either way the parser is left after the number. *)
Theorem parse_signed_sign_and_range (t : UTy) (Hb : 1 <= bits t)
    (p p' : Parser) (ps : Parts) (u : Z) :
  0 <= u <= umax t -> compute t ps = Ok u ->
  (nth_error (input p) (pos p) = Some 45 ->
   decode_unsigned_inner t (pos p) (mkParser (input p) (pos p + 1)) = (Ok ps, p') ->
   parse_signed t p
   = (if u <=? 2 ^ (bits t - 1) then Ok (- u)
      else Err (spanned (pos p) (pos p') (IntegerError IOverflow)), p'))
  /\ (nth_error (input p) (pos p) <> Some 45 ->
      decode_unsigned_inner t (pos p) p = (Ok ps, p') ->
      parse_unsigned t p = (Ok u, p')
      /\ parse_signed t p
         = (if u <? 2 ^ (bits t - 1) then Ok u
            else Err (spanned (pos p) (pos p') (IntegerError IOverflow)), p')).
Proof.
  intros Hu Hc. destruct (negate_signed_range t Hb u Hu) as [Hn Hs]. split.
  - intros H45 Hd.
    assert (Hlen : (pos p + 1 <= length (input p))%nat).
    { assert (Hlt : nth_error (input p) (pos p) <> None) by (rewrite H45; discriminate).
      apply nth_error_Some in Hlt. lia. }
    unfold parse_signed, decode_signed, bind, get_pos, peek_byte, ret; simpl.
    rewrite H45. unfold skip. destruct (Nat.leb_spec (pos p + 1) (length (input p))); [|lia].
    rewrite Hd. unfold signed_compute. rewrite Hc, Hn.
    destruct (u <=? 2 ^ (bits t - 1)); reflexivity.
  - intros H45 Hd. split.
    + unfold parse_unsigned, decode_unsigned, bind, get_pos, ret. rewrite Hd, Hc. reflexivity.
    + unfold parse_signed, decode_signed, bind, get_pos, peek_byte, ret; simpl.
      destruct (nth_error (input p) (pos p)) as [b|] eqn:Eb.
      * destruct (Z.eqb_spec b 45) as [->|Hne]; [contradiction|].
        replace (match b with 45 => _ | _ => _ end) with (fun q : Parser => (@Ok bool ParseError false, q)).
        2:{ destruct b as [|p0|p0]; try reflexivity.
            repeat (destruct p0 as [p0|p0|]; try reflexivity).
            exfalso; apply Hne; reflexivity. }
        rewrite Hd. unfold signed_compute. rewrite Hc, Hs.
        destruct (u <? 2 ^ (bits t - 1)); reflexivity.
      * rewrite Hd. unfold signed_compute. rewrite Hc, Hs.
        destruct (u <? 2 ^ (bits t - 1)); reflexivity.
Qed.

Lemma parse_signed_sign_and_range_witness :
  parse_signed U8 (mkParser [45; 49; 50; 56] 0)
  = (if 128 <=? 2 ^ (bits U8 - 1) then Ok (-128)
     else Err (spanned 0 4 (IntegerError IOverflow)), mkParser [45; 49; 50; 56] 4).
Proof.
  exact (proj1 (parse_signed_sign_and_range U8 ltac:(vm_compute; discriminate)
                  (mkParser [45; 49; 50; 56] 0) (mkParser [45; 49; 50; 56] 4)
                  (mkParts 128 0 0 false 0) 128
                  ltac:(vm_compute; split; discriminate) eq_refl)
           eq_refl ltac:(vm_compute; reflexivity)).
Defined.

End JsonSignedFacts.
